(** * z_lib: a virtual filesystem overlay over ZIP archives

    A shallow embedding of the three core pieces of the library and the
    properties stated about them:

    - [PathResolver]  : [src/z_lib/path_resolver.py]
    - [Walker]        : [src/z_lib/namespaces/z_os.py] ([Z_OS._walk_recursive])
    - [Codec], [Backend] : [src/z_lib/backend/zipfile_backend.py]

    Python [str] values that are only split, joined and compared are
    modelled by [string]; a non-ASCII character is its UTF-8 byte
    sequence there, which the operations used (splitting at '/',
    replacing '\', comparing) treat exactly as Python treats the
    character.  File names whose code points matter (the code-page
    correction) are lists of code points. *)

From Stdlib Require Import ZArith Ascii String List Lia Permutation.
From stdpp Require Import base option list strings gmap.

Local Open Scope string_scope.

(** ** Strings the way Python handles them *)

Module PyStr.

(** [s.replace(a, b)] for one-character [a] and [b]. *)
Fixpoint replace_char (a b : ascii) (s : string) : string :=
  match s with
  | EmptyString => EmptyString
  | String c r =>
      String (if Ascii.eqb c a then b else c) (replace_char a b r)
  end.

(** [s.split(sep)] for a one-character separator: never the empty list,
    empty fields are kept. *)
Fixpoint split (sep : ascii) (s : string) : list string :=
  match s with
  | EmptyString => [EmptyString]
  | String c r =>
      if Ascii.eqb c sep then EmptyString :: split sep r
      else match split sep r with
           | [] => [String c EmptyString]
           | p :: ps => String c p :: ps
           end
  end.

(** [sep.join(parts)]. *)
Fixpoint join (sep : string) (parts : list string) : string :=
  match parts with
  | [] => EmptyString
  | [p] => p
  | p :: ps => p +:+ sep +:+ join sep ps
  end.

(** [s.lower()] on the ASCII letters.  No non-ASCII character lowers
    to one of '.', 'z', 'i', 'p', so the suffix test below is exact. *)
Definition lower_char (c : ascii) : ascii :=
  let n := nat_of_ascii c in
  if (65 <=? n)%nat && (n <=? 90)%nat then ascii_of_nat (n + 32) else c.

Fixpoint lower (s : string) : string :=
  match s with
  | EmptyString => EmptyString
  | String c r => String (lower_char c) (lower r)
  end.

(** [s.endswith(suffix)]. *)
Definition endswith (s suffix : string) : bool :=
  let n := String.length s in
  let k := String.length suffix in
  (k <=? n)%nat && String.eqb (String.substring (n - k) k s) suffix.

Definition startswith (s pre : string) : bool := String.prefix pre s.

(** Python truthiness of a [str]. *)
Definition truthy (s : string) : bool :=
  match s with EmptyString => false | _ => true end.

End PyStr.

(** ** Handles and the registry *)

(** Modelled from the spec: [_types.py] ([OpenMode], [ZipHandle]) is not
    part of the sources at hand.  The mode is one of read and read-write
    (the code compares it with ["rw"]); a handle is a dictionary with the
    keys [path], [temp_dir] and [mode]. *)
Inductive OpenMode := ModeR | ModeRW.

Record ZipHandle := mkHandle {
  path : string;
  temp_dir : string;
  mode : OpenMode
}.

(** [loaded_zips : Dict[str, ZipHandle]].  A Python dict iterates in
    insertion order and the walker reads [loaded_zips.items()], so the
    registry is an association list with first-match lookup. *)
Definition registry := list (string * ZipHandle).

Fixpoint dict_get (reg : registry) (k : string) : option ZipHandle :=
  match reg with
  | [] => None
  | (k', h) :: r => if String.eqb k' k then Some h else dict_get r k
  end.

Definition dict_keys (reg : registry) : list string := map fst reg.

(** [k in loaded_zips]. *)
Definition dict_mem (reg : registry) (k : string) : bool :=
  match dict_get reg k with Some _ => true | None => false end.

(** Modelled from the spec: [exceptions.py] is not part of the sources at
    hand.  The error kinds are archive-not-found, invalid-archive and
    archive-not-loaded; [OSError] stands for whatever the operating
    system interface raises and [UnicodeEncodeError] is the built-in
    exception of [str.encode]. *)
Inductive error :=
  | FileNotFoundError (msg : string)
  | ZipPathError (msg : string)
  | ZipNotLoadedError (msg : string)
  | OSError (msg : string)
  | UnicodeEncodeError.

Inductive result (A : Type) :=
  | Ok (a : A)
  | Raise (e : error).
Arguments Ok {A} a.
Arguments Raise {A} e.

(** ** Paths *)

Module PathResolver.
Import PyStr.

Definition normalize_path (p : string) : string :=
  replace_char "\" "/" p.

(** The loop of [split_zip_path]: [seen] is [current_path_parts] before
    the component at hand, [rest] the components from it on. *)
Fixpoint split_zip_loop (seen rest : list string)
  : option (string * string) :=
  match rest with
  | [] => None
  | part :: rest' =>
      let current_path_parts := (seen ++ [part])%list in
      if endswith (lower part) ".zip"
      then Some (join "/" current_path_parts, join "/" rest')
      else split_zip_loop current_path_parts rest'
  end.

Definition split_zip_path (p : string) : option string * string :=
  let norm_path := normalize_path p in
  let parts := split "/" norm_path in
  match split_zip_loop [] parts with
  | Some (zip_path, internal_path) => (Some zip_path, internal_path)
  | None => (None, p)
  end.

(** [for i in range(len(parts), 0, -1)]: try the prefix of [i]
    components, longest first, and return at the first hit. *)
Fixpoint scan_prefixes (find : string -> option ZipHandle)
  (parts : list string) (i : nat) : option (ZipHandle * string) :=
  match i with
  | O => None
  | S j =>
      let potential := join "/" (take i parts) in
      match find potential with
      | Some handle => Some (handle, join "/" (drop i parts))
      | None => scan_prefixes find parts j
      end
  end.

(** [Path(a) / b] as a string, on POSIX: an absolute [b] replaces
    [a], an empty [b] leaves it. *)
Definition path_div (a b : string) : string :=
  if startswith b "/" then b
  else if truthy b then
    (if endswith a "/" then a +:+ b else a +:+ "/" +:+ b)
  else a.

Definition not_loaded_message (potential_zip p : string) : string :=
  "ZIP file '" +:+ potential_zip +:+ "' is not loaded (or path '"
    +:+ p +:+ "' is invalid).".

Section WithFilesystem.

(** [str(Path(p).resolve())]; [None] when the resolution raises. *)
Variable resolve : string -> option string.

(** Second pass: the candidate resolved to its physical path; an
    exception skips the candidate. *)
Definition find_physical (reg : registry) (potential : string)
  : option ZipHandle :=
  match resolve potential with
  | Some abs => dict_get reg (normalize_path abs)
  | None => None
  end.

Definition find_longest_match_handle (p : string) (reg : registry)
  : option ZipHandle * string :=
  let norm_path := normalize_path p in
  let parts := split "/" norm_path in
  match scan_prefixes (dict_get reg) parts (length parts) with
  | Some (handle, internal_path) => (Some handle, internal_path)
  | None =>
      match scan_prefixes (find_physical reg) parts (length parts) with
      | Some (handle, internal_path) => (Some handle, internal_path)
      | None => (None, p)
      end
  end.

Definition resolve_to_real_path (p : string) (reg : registry)
  : result string :=
  match find_longest_match_handle p reg with
  | (Some handle, internal_path) =>
      Ok (path_div (temp_dir handle) internal_path)
  | (None, _) =>
      match fst (split_zip_path p) with
      | Some potential_zip =>
          if truthy potential_zip
          then Raise (ZipNotLoadedError
                        (not_loaded_message potential_zip p))
          else match resolve p with
               | Some abs => Ok abs
               | None => Raise (OSError p)
               end
      | None =>
          match resolve p with
          | Some abs => Ok abs
          | None => Raise (OSError p)
          end
      end
  end.

End WithFilesystem.

End PathResolver.

(** ** The operating system as the walker sees it *)

(** What the walker asks of the file system.  [fs_resolve p] is
    [str(Path(p).resolve())] ([None] when it raises), [fs_is_dir] follows
    symbolic links, [fs_listdir] gives the entry names of a directory in
    listing order ([None] for an [OSError]). *)
Record filesystem := mkFS {
  fs_resolve : string -> option string;
  fs_is_dir : string -> bool;
  fs_is_symlink : string -> bool;
  fs_listdir : string -> option (list string)
}.

Module Walker.
Import PyStr PathResolver.

(** *** The store of list objects

    The lists a generator yields are Python objects shared with the
    consumer: what the consumer does to a yielded list is seen by
    whoever holds the same object, and by nobody else.  Lists live in
    a store indexed by locations. *)
Definition loc := nat.

Inductive event :=
  | Call (virtual_top : string)
  | Yield (root : string) (dirs files : list string)
  | OnError (msg : string).

Inductive halt :=
  | Raised (e : error)
  | OutOfFuel.

Record wstate := mkState {
  heap : gmap loc (list string);
  fresh : loc;
  trace : list event;
  halted : option halt
}.

Definition init : wstate := mkState ∅ 0 [] None.

Definition read (l : loc) (st : wstate) : list string :=
  default [] (heap st !! l).

Definition store (l : loc) (v : list string) (st : wstate) : wstate :=
  mkState (<[l := v]> (heap st)) (fresh st) (trace st) (halted st).

(** A new list object. *)
Definition alloc (v : list string) (st : wstate) : loc * wstate :=
  (fresh st,
   mkState (<[fresh st := v]> (heap st)) (S (fresh st)) (trace st)
           (halted st)).

Definition emit (e : event) (st : wstate) : wstate :=
  mkState (heap st) (fresh st) (trace st ++ [e]) (halted st).

Definition stop (h : halt) (st : wstate) : wstate :=
  mkState (heap st) (fresh st) (trace st) (Some h).

Definition running (st : wstate) : bool :=
  match halted st with None => true | Some _ => false end.

(** [os.path.join(top, name)] for a relative, non-empty [name]. *)
Definition os_join (top name : string) : string :=
  if endswith top "/" then top +:+ name else top +:+ "/" +:+ name.

(** [str(Path(root).relative_to(Path(base)))]; [None] is the
    [ValueError]. *)
Definition relative_to (root base : string) : option string :=
  if String.eqb root base then Some "."
  else if startswith root (base +:+ "/")
  then Some (String.substring (S (String.length base))
               (String.length root - S (String.length base)) root)
  else None.

(** [next(k for k, v in loaded_zips.items()
          if v["temp_dir"] == handle["temp_dir"])] *)
Fixpoint zip_key_of (reg : registry) (handle : ZipHandle)
  : option string :=
  match reg with
  | [] => None
  | (k, v) :: r =>
      if String.eqb (temp_dir v) (temp_dir handle) then Some k
      else zip_key_of r handle
  end.

(** [below base st st']: from [st] to [st'] locations were only added,
    and the list objects under [base] were left as they were. *)
Definition below (base : loc) (st st' : wstate) : Prop :=
  (fresh st <= fresh st')%nat
  /\ forall l, (l < base)%nat -> read l st' = read l st.

Section Walk.

Variable fs : filesystem.
Variable loaded_zips : registry.
Variable topdown : bool.
(** Whether an [onerror] callback was given; its calls are events. *)
Variable onerror : bool.
Variable followlinks : bool.
(** The consumer of the generator: handed a tuple, it may edit the two
    yielded lists in place; it returns their new contents. *)
Variable consumer :
  string -> list string -> list string -> list string * list string.

Definition report (msg : string) (st : wstate) : wstate :=
  if onerror then emit (OnError msg) st else st.

(** [yield root, dirs, files]: the consumer runs until it asks for the
    next tuple; [dirs] and [files] are the objects at those
    locations. *)
Definition do_yield (root : string) (dirs files : loc) (st : wstate)
  : wstate :=
  let ds := read dirs st in
  let fl := read files st in
  let st := emit (Yield root ds fl) st in
  let '(ds', fl') := consumer root ds fl in
  store dirs ds' (store files fl' st).

(** [os.walk(top, topdown, onerror, followlinks)] of the standard
    library, with [body] the body of the [for] loop that consumes
    it.  Top-down, the list it recurses over is the list object it
    yielded. *)
Fixpoint os_walk (fuel : nat) (body : string -> loc -> loc -> wstate -> wstate)
  (top : string) (st : wstate) : wstate :=
  if negb (running st) then st else
  match fuel with
  | O => stop OutOfFuel st
  | S fuel' =>
      match fs_listdir fs top with
      | None => report top st
      | Some names =>
          let is_d name := fs_is_dir fs (os_join top name) in
          let '(dirs, st) := alloc (filter (fun n => is_d n = true) names) st in
          let '(nondirs, st) :=
            alloc (filter (fun n => is_d n = false) names) st in
          let walk_into new_path :=
            followlinks || negb (fs_is_symlink fs new_path) in
          if topdown then
            let st := body top dirs nondirs st in
            foldl (fun st dirname =>
                     let new_path := os_join top dirname in
                     if walk_into new_path
                     then os_walk fuel' body new_path st else st)
                  st (read dirs st)
          else
            let walk_dirs :=
              filter (fun p => walk_into p = true)
                (map (os_join top)
                   (filter (fun n => is_d n = true) names)) in
            let st := foldl (fun st new_path =>
                               os_walk fuel' body new_path st)
                            st walk_dirs in
            if running st then body top dirs nondirs st else st
      end
  end.

(** [lst.append(x)] *)
Definition append (l : loc) (x : string) (st : wstate) : wstate :=
  store l (read l st ++ [x])%list st.

(** One round of the loop that sorts the entries of [real_top]. *)
Definition classify_entry (real_top : string)
  (sub_dirs sub_files zip_entries : loc) (st : wstate) (name : string)
  : wstate :=
  if negb (running st) then st else
  let entry := os_join real_top name in
  match fs_resolve fs entry with
  | None => stop (Raised (OSError entry)) st
  | Some abs =>
      let norm_entry := normalize_path abs in
      if fs_is_dir fs entry
         && negb (fs_is_symlink fs entry && negb followlinks)
      then append sub_dirs name st
      else if dict_mem loaded_zips norm_entry
      then append zip_entries name st
      else append sub_files name st
  end.

(** The body of the loop over [os.walk] in the archive-backed
    branch: the tuple is passed on with its root rewritten, the
    lists are the objects [os.walk] yielded. *)
Definition archive_body (handle : ZipHandle)
  (root : string) (dirs files : loc) (st : wstate) : wstate :=
  match relative_to root (temp_dir handle) with
  | None => st
  | Some rel =>
      match zip_key_of loaded_zips handle with
      | None => stop (Raised (OSError "StopIteration")) st
      | Some zip_key =>
          let virtual_root :=
            if String.eqb rel "." then zip_key
            else zip_key +:+ "/" +:+ normalize_path rel in
          do_yield virtual_root dirs files st
      end
  end.

(** Case 2 of the source, a directory of the real file system whose
    entries were listed; [self] is the recursive call.  The list
    yielded is [virtual_dirs], a new object made by [+]; the two
    loops run over [sub_dirs] and [zip_entries]. *)
Definition local_directory (self : string -> wstate -> wstate)
  (virtual_top real_top : string) (entries : list string)
  (st : wstate) : wstate :=
  let '(sub_dirs, st) := alloc [] st in
  let '(sub_files, st) := alloc [] st in
  let '(zip_entries, st) := alloc [] st in
  let st :=
    foldl (classify_entry real_top sub_dirs sub_files zip_entries)
          st entries in
  if negb (running st) then st else
  let '(virtual_dirs, st) :=
    alloc (read sub_dirs st ++ read zip_entries st)%list st in
  let st :=
    if topdown then do_yield virtual_top virtual_dirs sub_files st
    else st in
  let st :=
    foldl (fun st d =>
             let child_virtual := virtual_top +:+ "/" +:+ d in
             self child_virtual st)
          st (read sub_dirs st) in
  let st :=
    foldl (fun st zname =>
             if negb (running st) then st else
             match fs_resolve fs (os_join real_top zname) with
             | None => stop (Raised (OSError zname)) st
             | Some abs =>
                 let child_virtual := normalize_path abs in
                 self child_virtual st
             end)
          st (read zip_entries st) in
  if topdown then st
  else if running st
  then do_yield virtual_top virtual_dirs sub_files st
  else st.

Fixpoint _walk_recursive (fuel : nat) (virtual_top : string)
  (st : wstate) : wstate :=
  if negb (running st) then st else
  match fuel with
  | O => stop OutOfFuel st
  | S fuel' =>
      let st := emit (Call virtual_top) st in
      match find_longest_match_handle (fs_resolve fs) virtual_top
              loaded_zips with
      | (Some handle, internal_path) =>
          let real_top := path_div (temp_dir handle) internal_path in
          os_walk fuel' (archive_body handle) real_top st
      | (None, _) =>
          match fs_resolve fs virtual_top with
          | None => stop (Raised (OSError virtual_top)) st
          | Some real_top =>
              if negb (fs_is_dir fs real_top)
              then report ("Not a directory: " +:+ virtual_top) st
              else
                match fs_listdir fs real_top with
                | None => report real_top st
                | Some entries =>
                    local_directory (_walk_recursive fuel')
                      virtual_top real_top entries st
                end
          end
      end
  end.

Definition walk (fuel : nat) (top : string) : wstate :=
  _walk_recursive fuel (normalize_path top) init.

(** *** What the sorting loop computes

    The three lists the loop over the entries builds, as filters of
    the listing. *)
Inductive entry_kind := IsSubdir | IsMount | IsFile.

Definition kind_eqb (a b : entry_kind) : bool :=
  match a, b with
  | IsSubdir, IsSubdir | IsMount, IsMount | IsFile, IsFile => true
  | _, _ => false
  end.

Definition resolvable (real_top name : string) : bool :=
  match fs_resolve fs (os_join real_top name) with
  | Some _ => true
  | None => false
  end.

Definition is_registry_key (real_top name : string) : bool :=
  match fs_resolve fs (os_join real_top name) with
  | Some abs => dict_mem loaded_zips (normalize_path abs)
  | None => false
  end.

Definition kind_of (real_top name : string) : entry_kind :=
  let entry := os_join real_top name in
  if fs_is_dir fs entry
     && negb (fs_is_symlink fs entry && negb followlinks)
  then IsSubdir
  else if is_registry_key real_top name then IsMount
  else IsFile.

Definition select (k : entry_kind) (real_top : string)
  (entries : list string) : list string :=
  List.filter (fun n => kind_eqb (kind_of real_top n) k) entries.

(** The virtual path the walk gives to a mount point. *)
Definition mount_child (real_top zname : string) : string :=
  match fs_resolve fs (os_join real_top zname) with
  | Some abs => normalize_path abs
  | None => zname
  end.

(** What an observer of the generator sees. *)
Definition yields (st : wstate) : list (string * list string * list string) :=
  omap (fun e => match e with
                 | Yield r d f => Some (r, d, f)
                 | _ => None
                 end) (trace st).

Definition calls (st : wstate) : list string :=
  omap (fun e => match e with Call v => Some v | _ => None end)
       (trace st).

End Walk.

End Walker.

(** ** A small world to run the walker in

    The working directory of the process is [/home].  [/home/data] holds
    a directory [d], a symbolic link [link] to [d], a loaded archive
    [pack.zip] and a plain file [n.txt].  The archive is extracted to
    [/tmp/z_lib_1]. *)
Module Sample.
Import PyStr.

Definition dirs_on_disk : list string :=
  ["/home"; "/home/data"; "/home/data/d"; "/home/data/link";
   "/tmp"; "/tmp/z_lib_1"; "/tmp/z_lib_1/sub"].

Definition listing : list (string * list string) :=
  [("/home", ["data"]);
   ("/home/data", ["d"; "link"; "pack.zip"; "n.txt"]);
   ("/home/data/d", ["f.txt"]);
   ("/home/data/link", ["f.txt"]);
   ("/tmp", ["z_lib_1"]);
   ("/tmp/z_lib_1", ["inner.txt"; "sub"]);
   ("/tmp/z_lib_1/sub", ["g.txt"])].

Fixpoint assoc {A} (l : list (string * A)) (k : string) : option A :=
  match l with
  | [] => None
  | (k', v) :: r => if String.eqb k' k then Some v else assoc r k
  end.

Definition sample_resolve (p : string) : option string :=
  let abs := if startswith p "/" then p else "/home/" +:+ p in
  Some (if String.eqb abs "/home/data/link" then "/home/data/d" else abs).

Definition sample_fs : filesystem :=
  {| fs_resolve := sample_resolve;
     fs_is_dir := fun p => existsb (String.eqb p) dirs_on_disk;
     fs_is_symlink := fun p => String.eqb p "/home/data/link";
     fs_listdir := assoc listing |}.

Definition pack_handle : ZipHandle :=
  mkHandle "/home/data/pack.zip" "/tmp/z_lib_1" ModeRW.

Definition sample_registry : registry :=
  [("/home/data/pack.zip", pack_handle)].

(** A consumer that leaves the yielded lists alone. *)
Definition passive (root : string) (dirs files : list string)
  : list string * list string := (dirs, files).

(** A consumer that removes [name] from every yielded directory list. *)
Definition prune (name : string) (root : string)
  (dirs files : list string) : list string * list string :=
  (List.filter (fun d => negb (String.eqb d name)) dirs, files).

End Sample.

(** ** File names and code pages *)

Local Open Scope Z_scope.

(** A Python [str] whose characters matter: its code points. *)
Definition pystr := list Z.

Definition bytes := list Byte.byte.

Module Codec.

Definition byte_val (b : Byte.byte) : Z := Z.of_N (Byte.to_N b).

(** The upper half of code page 437, bytes 0x80 to 0xFF, as Unicode
    code points; the lower half is ASCII. *)
Definition cp437_high : list Z :=
  [199; 252; 233; 226; 228; 224; 229; 231;
   234; 235; 232; 239; 238; 236; 196; 197;
   201; 230; 198; 244; 246; 242; 251; 249;
   255; 214; 220; 162; 163; 165; 8359; 402;
   225; 237; 243; 250; 241; 209; 170; 186;
   191; 8976; 172; 189; 188; 161; 171; 187;
   9617; 9618; 9619; 9474; 9508; 9569; 9570; 9558;
   9557; 9571; 9553; 9559; 9565; 9564; 9563; 9488;
   9492; 9524; 9516; 9500; 9472; 9532; 9566; 9567;
   9562; 9556; 9577; 9574; 9568; 9552; 9580; 9575;
   9576; 9572; 9573; 9561; 9560; 9554; 9555; 9579;
   9578; 9496; 9484; 9608; 9604; 9612; 9616; 9600;
   945; 223; 915; 960; 931; 963; 181; 964;
   934; 920; 937; 948; 8734; 966; 949; 8745;
   8801; 177; 8805; 8804; 8992; 8993; 247; 8776;
   176; 8729; 183; 8730; 8319; 178; 9632; 160].

Definition cp437_decode_byte (b : Byte.byte) : Z :=
  let n := byte_val b in
  if n <? 128 then n else nth (Z.to_nat (n - 128)) cp437_high 0.

(** [raw.decode("cp437")]: every byte has a character. *)
Definition cp437_decode (raw : bytes) : pystr :=
  map cp437_decode_byte raw.

Fixpoint index_of (u : Z) (l : list Z) (i : Z) : option Z :=
  match l with
  | [] => None
  | x :: r => if x =? u then Some i else index_of u r (i + 1)
  end.

Definition cp437_encode_char (u : Z) : option Byte.byte :=
  if (0 <=? u) && (u <? 128) then Byte.of_N (Z.to_N u)
  else match index_of u cp437_high 128 with
       | Some n => Byte.of_N (Z.to_N n)
       | None => None
       end.

(** [s.encode("cp437")]; [None] is the [UnicodeEncodeError] for a
    character outside the code page. *)
Fixpoint cp437_encode (s : pystr) : option bytes :=
  match s with
  | [] => Some []
  | u :: r =>
      match cp437_encode_char u with
      | Some b => cons b <$> cp437_encode r
      | None => None
      end
  end.

Section CP932.

(** The double-byte table of code page 932: lead byte, trail byte,
    code point.  The single-byte part of the code page is written
    out below. *)
Variable dbcs : Z -> Z -> option Z.

(** [raw.decode("cp932")], strict; [None] is the
    [UnicodeDecodeError]. *)
Fixpoint cp932_decode (raw : bytes) : option pystr :=
  match raw with
  | [] => Some []
  | b :: rest =>
      let c := byte_val b in
      if c <=? 0x80 then cons c <$> cp932_decode rest
      else if (0xa0 <=? c) && (c <=? 0xdf)
      then cons (if c =? 0xa0 then 0xf8f0 else 0xfec0 + c)
             <$> cp932_decode rest
      else if 0xfd <=? c
      then cons (0xf8f1 - 0xfd + c) <$> cp932_decode rest
      else match rest with
           | [] => None
           | b2 :: rest' =>
               match dbcs c (byte_val b2) with
               | Some u => cons u <$> cp932_decode rest'
               | None => None
               end
           end
  end.

Definition _FLAG_UTF8 : Z := 0x800.

(** [zipfile.ZipInfo], the two attributes read here: the name as the
    archive reader decoded it, and the general purpose bit flags. *)
Record ZipInfo := mkInfo {
  filename : pystr;
  flag_bits : Z
}.

Definition _decode_zip_filename (info : ZipInfo) : result pystr :=
  if negb (Z.land (flag_bits info) _FLAG_UTF8 =? 0)
  then Ok (filename info)
  else
    match cp437_encode (filename info) with
    | None => Raise UnicodeEncodeError
    | Some raw_bytes =>
        match cp932_decode raw_bytes with
        | Some s => Ok s
        | None => Ok (filename info)
        end
    end.

End CP932.

(** A few rows of the double-byte table, enough to read the names used
    as examples: U+65E5, U+672C, U+8A9E and the ideographic space. *)
Definition dbcs_excerpt (lead trail : Z) : option Z :=
  if (lead =? 0x93) && (trail =? 0xfa) then Some 0x65e5
  else if (lead =? 0x96) && (trail =? 0x7b) then Some 0x672c
  else if (lead =? 0x8c) && (trail =? 0xea) then Some 0x8a9e
  else if (lead =? 0x81) && (trail =? 0x40) then Some 0x3000
  else None.

End Codec.

(** ** The archive backend *)

Module Backend.
Import Codec.

(** *** Names as paths *)

Definition slash : Z := 47.
Definition dot : pystr := [46].
Definition dotdot : pystr := [46; 46].

Fixpoint pystr_eqb (a b : pystr) : bool :=
  match a, b with
  | [], [] => true
  | x :: a', y :: b' => (x =? y) && pystr_eqb a' b'
  | _, _ => false
  end.

(** [s.split("/")] *)
Fixpoint psplit (s : pystr) : list pystr :=
  match s with
  | [] => [[]]
  | c :: r =>
      if c =? slash then [] :: psplit r
      else match psplit r with
           | [] => [[c]]
           | p :: ps => (c :: p) :: ps
           end
  end.

(** ["/".join(parts)] *)
Fixpoint pjoin (parts : list pystr) : pystr :=
  match parts with
  | [] => []
  | [p] => p
  | p :: ps => (p ++ slash :: pjoin ps)%list
  end.

(** [s.endswith("/")] *)
Fixpoint ends_with_slash (s : pystr) : bool :=
  match s with
  | [] => false
  | [c] => c =? slash
  | _ :: r => ends_with_slash r
  end.

Definition is_absolute (s : pystr) : bool :=
  match s with c :: _ => c =? slash | [] => false end.

Definition is_nil (s : pystr) : bool :=
  match s with [] => true | _ => false end.

(** The components [Path(dest_dir) / name] adds below [dest_dir]:
    pathlib drops empty and ["."] components. *)
Definition path_parts (name : pystr) : list pystr :=
  List.filter (fun p => negb (is_nil p) && negb (pystr_eqb p dot))
              (psplit name).

(** An absolute name replaces [dest_dir], and a [".."] component climbs
    out of a directory: such an entry is not confined to the working
    directory. *)
Definition leaves_dest (name : pystr) : bool :=
  is_absolute name || existsb (pystr_eqb dotdot) (psplit name).

(** *** The working directory *)

#[local] Set Warnings "-register-all".

Inductive node :=
  | File (data : bytes)
  | Dir (entries : list (pystr * node)).

Definition tree := list (pystr * node).

Fixpoint lookup_name (nm : pystr) (t : tree) : option node :=
  match t with
  | [] => None
  | (k, n) :: r => if pystr_eqb k nm then Some n else lookup_name nm r
  end.

(** Rebind [nm], a new name goes last. *)
Fixpoint bind_name (nm : pystr) (n : node) (t : tree) : tree :=
  match t with
  | [] => [(nm, n)]
  | (k, n') :: r =>
      if pystr_eqb k nm then (k, n) :: r else (k, n') :: bind_name nm n r
  end.

(** [p.mkdir(parents=True, exist_ok=True)] for the path [parts] below
    the tree: an existing file on the way is an error. *)
Fixpoint mkdirs (parts : list pystr) (t : tree) : result tree :=
  match parts with
  | [] => Ok t
  | p :: ps =>
      match lookup_name p t with
      | None =>
          match mkdirs ps [] with
          | Ok sub => Ok (bind_name p (Dir sub) t)
          | Raise e => Raise e
          end
      | Some (Dir sub) =>
          match mkdirs ps sub with
          | Ok sub' => Ok (bind_name p (Dir sub') t)
          | Raise e => Raise e
          end
      | Some (File _) => Raise (OSError "FileExistsError")
      end
  end.

(** [open(dest_path, "wb")] and the copy of the payload: the parent
    must be a directory and the path itself must not be one. *)
Fixpoint write_file (parts : list pystr) (data : bytes) (t : tree)
  : result tree :=
  match parts with
  | [] => Raise (OSError "IsADirectoryError")
  | [p] =>
      match lookup_name p t with
      | Some (Dir _) => Raise (OSError "IsADirectoryError")
      | _ => Ok (bind_name p (File data) t)
      end
  | p :: ps =>
      match lookup_name p t with
      | Some (Dir sub) =>
          match write_file ps data sub with
          | Ok sub' => Ok (bind_name p (Dir sub') t)
          | Raise e => Raise e
          end
      | Some (File _) => Raise (OSError "NotADirectoryError")
      | None => Raise (OSError "FileNotFoundError")
      end
  end.

(** The node at a path of the tree. *)
Inductive node_at : tree -> list pystr -> node -> Prop :=
  | at_here t nm n :
      (nm, n) ∈ t -> node_at t [nm] n
  | at_below t nm sub ps n :
      (nm, Dir sub) ∈ t -> node_at sub ps n -> node_at t (nm :: ps) n.

(** Induction over a node and, for a directory, over all its
    entries. *)
Section NodeInduction.
Variable P : node -> Prop.
Hypothesis on_file : forall data, P (File data).
Hypothesis on_dir :
  forall es, List.Forall (fun e => P (snd e)) es -> P (Dir es).

Fixpoint node_rect_nested (n : node) : P n :=
  match n with
  | File data => on_file data
  | Dir es =>
      on_dir es
        ((fix all (l : list (pystr * node))
            : List.Forall (fun e => P (snd e)) l :=
            match l with
            | [] => List.Forall_nil _
            | e :: r =>
                @List.Forall_cons _ (fun e => P (snd e)) e r
                  (node_rect_nested (snd e)) (all r)
            end) es)
  end.
End NodeInduction.

(** Everything below a node, with its path: a file with its bytes, a
    directory with [None]. *)
Fixpoint node_entries (rel : list pystr) (n : node)
  : list (list pystr * option bytes) :=
  match n with
  | File data => [(rel, Some data)]
  | Dir es =>
      (rel, None)
        :: (fix each (l : list (pystr * node)) :=
              match l with
              | [] => []
              | (nm, c) :: r =>
                  (node_entries (rel ++ [nm]) c ++ each r)%list
              end) es
  end.

(** The entry set of a working directory. *)
Definition tree_entries (wd : tree) : list (list pystr * option bytes) :=
  tl (node_entries [] (Dir wd)).

(** *** Archives as the archive library presents them *)

Record zip_entry := mkEntry {
  info : ZipInfo;
  payload : bytes
}.

Definition is_ascii (s : pystr) : bool :=
  forallb (fun c => (0 <=? c) && (c <? 128)) s.

(** [zf.write(file_path, arcname)]: the library stores an ASCII name
    with the flags clear and any other name in UTF-8 with bit 11 set;
    read back, the entry has this name and these flags. *)
Definition zf_write (arcname : pystr) (data : bytes) : zip_entry :=
  mkEntry (mkInfo arcname (if is_ascii arcname then 0 else _FLAG_UTF8))
          data.

(** Why an extraction stopped early. *)
Inductive stopped :=
  | Failed (e : error)
  | Outside (name : pystr).

Section WithEnvironment.

Variable dbcs : Z -> Z -> option Z.

(** The order in which the operating system lists a directory. *)
Variable scandir : forall A : Type, list (pystr * A) -> list (pystr * A).

(** One round of the loop of [_extract_with_encoding]. *)
Definition extract_entry (dest : tree) (e : zip_entry)
  : tree * option stopped :=
  match _decode_zip_filename dbcs (info e) with
  | Raise err => (dest, Some (Failed err))
  | Ok correct_name =>
      if leaves_dest correct_name
      then (dest, Some (Outside correct_name))
      else
        let parts := path_parts correct_name in
        if ends_with_slash correct_name then
          match mkdirs parts dest with
          | Ok t => (t, None)
          | Raise err => (dest, Some (Failed err))
          end
        else
          match mkdirs (removelast parts) dest with
          | Ok t =>
              match write_file parts (payload e) t with
              | Ok t' => (t', None)
              | Raise err => (t, Some (Failed err))
              end
          | Raise err => (dest, Some (Failed err))
          end
  end.

Fixpoint _extract_with_encoding (infolist : list zip_entry)
  (dest : tree) : tree * option stopped :=
  match infolist with
  | [] => (dest, None)
  | e :: rest =>
      match extract_entry dest e with
      | (t, None) => _extract_with_encoding rest t
      | (t, Some s) => (t, Some s)
      end
  end.

(** [os.walk(temp_dir)] flattened the way [close] consumes it: for
    each directory, top-down, its files with their path relative to
    [temp_dir]; directories contribute nothing themselves. *)
Fixpoint walk_files (rel : list pystr) (n : node)
  : list (list pystr * bytes) :=
  match n with
  | File _ => []
  | Dir es =>
      let scanned :=
        scandir _
          ((fix each (l : list (pystr * node)) :=
              match l with
              | [] => []
              | (nm, c) :: r =>
                  (nm, (c, walk_files (rel ++ [nm]) c)) :: each r
              end) es) in
      (omap (fun '(nm, (c, _)) =>
               match c with
               | File data => Some ((rel ++ [nm])%list, data)
               | Dir _ => None
               end) scanned
       ++ concat (map (fun '(_, (_, below)) => below) scanned))%list
  end.

Definition written_files (wd : tree) : list (list pystr * bytes) :=
  walk_files [] (Dir wd).

(** The archive a complete rewrite produces. *)
Definition archive_of (wd : tree) : list zip_entry :=
  map (fun '(parts, data) => zf_write (pjoin parts) data)
      (written_files wd).

(** *** The disk around one archive

    [target] is what lies at [handle["path"]], [workdir] the tree at
    [handle["temp_dir"]] ([None] when the directory does not exist),
    [tmpzip] the temporary archive next to the target and
    [parent_exists] says whether the directory of the target is
    there. *)
Inductive file_state :=
  | Absent
  | NotZip
  | Zip (entries : list zip_entry).

Record disk := mkDisk {
  target : file_state;
  parent_exists : bool;
  workdir : option tree;
  tmpzip : option (list zip_entry)
}.

(** What may go wrong in the operating system during [close].
    [write_fails_at = Some k] makes the [k]-th call of [zf.write]
    raise; [rmtree_leaves = Some t] makes the removal of the working
    directory fail and leave [t] behind. *)
Record faults := mkFaults {
  mkdir_fails : bool;
  mkstemp_fails : bool;
  zip_open_fails : bool;
  write_fails_at : option nat;
  zip_close_fails : bool;
  move_fails : bool;
  remove_fails : bool;
  rmtree_leaves : option tree
}.

Definition with_rmtree (leftover : option tree) (f : faults) : faults :=
  mkFaults (mkdir_fails f) (mkstemp_fails f) (zip_open_fails f)
           (write_fails_at f) (zip_close_fails f) (move_fails f)
           (remove_fails f) leftover.

Definition no_faults : faults :=
  mkFaults false false false None false false false None.

Definition set_workdir (w : option tree) (d : disk) : disk :=
  mkDisk (target d) (parent_exists d) w (tmpzip d).

Definition set_tmpzip (z : option (list zip_entry)) (d : disk) : disk :=
  mkDisk (target d) (parent_exists d) (workdir d) z.

(** How [open] ends: with a handle, with an exception, or with an
    entry written outside the working directory, where this model
    does not follow it. *)
Inductive opened :=
  | Opened (handle : ZipHandle)
  | OpenFailed (e : error)
  | Unconfined (name : pystr).

(** [ZipFileBackend.open]; [temp] is the name [tempfile.mkdtemp]
    hands out. *)
Definition open (archive_path temp : string) (create : bool)
  (mode : OpenMode) (d : disk) : disk * opened :=
  let handle := mkHandle archive_path temp mode in
  match target d with
  | Absent =>
      if negb create
      then (d, OpenFailed (FileNotFoundError archive_path))
      else (set_workdir (Some []) d, Opened handle)
  | Zip infolist =>
      match _extract_with_encoding infolist [] with
      | (t, None) => (set_workdir (Some t) d, Opened handle)
      | (t, Some (Failed e)) => (set_workdir (Some t) d, OpenFailed e)
      | (t, Some (Outside name)) =>
          (set_workdir (Some t) d, Unconfined name)
      end
  | NotZip =>
      (set_workdir None d, OpenFailed (ZipPathError archive_path))
  end.

(** The [with zipfile.ZipFile(...)] block and the move that follows
    it: the temporary archive as it stands when the block is left,
    and the exception if there is one. *)
Definition build (f : faults) (wd : tree)
  : list zip_entry * option error :=
  if zip_open_fails f then ([], Some (OSError "open"))
  else
    let files := archive_of wd in
    match write_fails_at f with
    | Some k =>
        if (k <? length files)%nat
        then (take k files, Some (OSError "write"))
        else if zip_close_fails f then (files, Some (OSError "close"))
        else (files, None)
    | None =>
        if zip_close_fails f then (files, Some (OSError "close"))
        else (files, None)
    end.

(** The inner [try] of [close], entered with the temporary file
    created. *)
Definition rewrite_archive (f : faults) (wd : tree) (d : disk)
  : disk * result unit :=
  let '(written, failure) := build f wd in
  let d := set_tmpzip (Some written) d in
  let failure :=
    match failure with
    | Some e => Some e
    | None => if move_fails f then Some (OSError "move") else None
    end in
  match failure with
  | None =>
      (mkDisk (Zip written) (parent_exists d) (workdir d) None, Ok tt)
  | Some e =>
      (* except Exception: remove the temporary file if it is there,
         then raise again *)
      match tmpzip d with
      | Some _ =>
          if remove_fails f then (d, Raise (OSError "remove"))
          else (set_tmpzip None d, Raise e)
      | None => (d, Raise e)
      end
  end.

(** The body of the outer [try]. *)
Definition save_archive (f : faults) (handle : ZipHandle) (save : bool)
  (d : disk) : disk * result unit :=
  match save, mode handle, workdir d with
  | true, ModeRW, Some wd =>
      if negb (parent_exists d) && mkdir_fails f
      then (d, Raise (OSError "mkdir"))
      else
        let d := mkDisk (target d) true (workdir d) (tmpzip d) in
        if mkstemp_fails f then (d, Raise (OSError "mkstemp"))
        else rewrite_archive f wd (set_tmpzip (Some []) d)
  | _, _, _ => (d, Ok tt)
  end.

(** [ZipFileBackend.close]: the [finally] clause removes the working
    directory with [ignore_errors=True], whatever the body did. *)
Definition close (f : faults) (handle : ZipHandle) (save : bool)
  (d : disk) : disk * result unit :=
  let '(d, outcome) := save_archive f handle save d in
  let d :=
    match workdir d with
    | Some _ => set_workdir (rmtree_leaves f) d
    | None => d
    end in
  (d, outcome).

End WithEnvironment.

End Backend.

(** ** Names and trees used as examples *)
Module SampleArchive.
Import Codec Backend.

(** ["A"], ["B"], ["C"], ["E"], ["B/"], ["B/C"] and ["E/"]. *)
Definition name_A : pystr := [65].
Definition name_B : pystr := [66].
Definition name_C : pystr := [67].
Definition name_E : pystr := [69].
Definition name_B_slash : pystr := [66; 47].
Definition name_B_C : pystr := [66; 47; 67].
Definition name_E_slash : pystr := [69; 47].

(** The archive of the round trip: a file, a directory, a file in it. *)
Definition abc_archive (fa fb fc : Z) (a bd c : bytes) : list zip_entry :=
  [mkEntry (mkInfo name_A fa) a;
   mkEntry (mkInfo name_B_slash fb) bd;
   mkEntry (mkInfo name_B_C fc) c].

(** What it extracts to. *)
Definition abc_tree (a c : bytes) : tree :=
  [(name_A, File a); (name_B, Dir [(name_C, File c)])].

(** A working directory with a file and an empty directory. *)
Definition tree_with_empty_dir (a : bytes) : tree :=
  [(name_A, File a); (name_E, Dir [])].

(** The operating system listing directories in the order of the
    tree, and in the opposite order. *)
Definition in_order : forall A : Type, list (pystr * A) -> list (pystr * A) :=
  fun _ l => l.

Definition reversed : forall A : Type, list (pystr * A) -> list (pystr * A) :=
  fun _ l => rev l.

End SampleArchive.

(** ** Observations on a run of the walker *)

Module Observations.
Import PyStr Walker.

(** From [st] to [st'] the trace was only extended, by events that all
    satisfy [P]. *)
Definition extends (P : event -> Prop) (st st' : wstate) : Prop :=
  exists new, trace st' = (trace st ++ new)%list /\ List.Forall P new.

(** [root] is the archive path [key] or a path below it. *)
Definition under (key root : string) : Prop :=
  root = key \/ startswith root (key +:+ "/") = true.

(** What the archive-backed branch may emit for the archive [key]: its
    own tuples and error reports, never a recursive call. *)
Definition archive_event (key : string) (e : event) : Prop :=
  match e with
  | Call _ => False
  | Yield root _ _ => under key root
  | OnError _ => True
  end.

End Observations.

(** ** Looking into a working directory *)

Module TreeSpec.
Import Codec Backend.

(** A component a file system accepts as a name: not empty, without a
    slash, and neither ["."] nor [".."]. *)
Definition plain (nm : pystr) : bool :=
  negb (is_nil nm) && negb (existsb (fun c => c =? slash) nm)
  && negb (pystr_eqb nm dot) && negb (pystr_eqb nm dotdot).

Definition no_slash (p : pystr) : bool :=
  negb (existsb (fun c => (c =? slash)%Z) p).

Definition plain_path (ps : list pystr) : bool :=
  match ps with [] => false | _ => forallb plain ps end.

(** The node a path leads to, through directories only. *)
Fixpoint find_node (t : tree) (ps : list pystr) : option node :=
  match ps with
  | [] => None
  | p :: rest =>
      match lookup_name p t with
      | None => None
      | Some n =>
          match rest with
          | [] => Some n
          | _ :: _ =>
              match n with
              | Dir sub => find_node sub rest
              | File _ => None
              end
          end
      end
  end.

Definition file_at (t : tree) (ps : list pystr) : option bytes :=
  match find_node t ps with Some (File data) => Some data | _ => None end.

Definition dir_at (t : tree) (ps : list pystr) : bool :=
  match find_node t ps with Some (Dir _) => true | _ => false end.

Fixpoint path_eqb (a b : list pystr) : bool :=
  match a, b with
  | [], [] => true
  | x :: a', y :: b' => pystr_eqb x y && path_eqb a' b'
  | _, _ => false
  end.

(** [q] is a path strictly above [p]. *)
Fixpoint is_proper_prefix (q p : list pystr) : bool :=
  match q, p with
  | [], _ :: _ => true
  | x :: q', y :: p' => pystr_eqb x y && is_proper_prefix q' p'
  | _, _ => false
  end.

(** No file path lies strictly above another one. *)
Definition conflict_free (files : list (list pystr * bytes)) : bool :=
  forallb (fun f =>
             forallb (fun g => negb (is_proper_prefix (fst f) (fst g)))
                     files) files.

(** The payload of the last entry written to a path. *)
Definition last_payload (files : list (list pystr * bytes))
  (qs : list pystr) : option bytes :=
  fold_left (fun acc f => if path_eqb (fst f) qs then Some (snd f) else acc)
            files None.

(** The entries [zf.write] makes of a list of files. *)
Definition entries_of (files : list (list pystr * bytes)) : list zip_entry :=
  map (fun f => zf_write (pjoin (fst f)) (snd f)) files.

(** A tree as a file system keeps it: the names of a directory are
    plain and all different, all the way down. *)
Fixpoint names_distinct (names : list pystr) : bool :=
  match names with
  | [] => true
  | n :: r => negb (existsb (pystr_eqb n) r) && names_distinct r
  end.

Fixpoint well_formed (n : node) : bool :=
  match n with
  | File _ => true
  | Dir es =>
      forallb plain (map fst es) && names_distinct (map fst es)
      && (fix all (l : list (pystr * node)) : bool :=
            match l with
            | [] => true
            | (_, c) :: r => well_formed c && all r
            end) es
  end.

End TreeSpec.

(** * Properties *)

(** ** Path resolution *)

Module PathResolverFacts.
Import PyStr PathResolver.

Local Open Scope nat_scope.
Local Open Scope list_scope.

Lemma length_lower s : String.length (lower s) = String.length s.
Proof. induction s as [|c s IH]; simpl; congruence. Qed.

Lemma endswith_zip_nonempty part :
  endswith (lower part) ".zip" = true -> part <> EmptyString.
Proof.
  intros H ->. vm_compute in H. discriminate.
Qed.

Lemma append_nonempty_r a b : b <> EmptyString -> a +:+ b <> EmptyString.
Proof. destruct a; simpl; [tauto | discriminate]. Qed.

Lemma join_snoc_nonempty sep seen part :
  part <> EmptyString -> join sep (seen ++ [part]) <> EmptyString.
Proof.
  intros Hp. induction seen as [|a l IH]; [exact Hp|].
  change ((a :: l) ++ [part]) with (a :: (l ++ [part])).
  destruct (l ++ [part]) as [|q r] eqn:E.
  - destruct l; discriminate.
  - change (a +:+ sep +:+ join sep (q :: r) <> EmptyString).
    apply append_nonempty_r, append_nonempty_r, IH.
Qed.

Lemma truthy_nonempty s : s <> EmptyString -> truthy s = true.
Proof. destruct s; [tauto | reflexivity]. Qed.

(** What [split_zip_path] finds is the first prefix whose last
    component ends in [.zip], whatever the case of the letters. *)
Lemma split_zip_loop_found seen rest z i :
  split_zip_loop seen rest = Some (z, i) ->
  exists before part after,
    rest = before ++ part :: after
    /\ endswith (lower part) ".zip" = true
    /\ Forall (fun q => endswith (lower q) ".zip" = false) before
    /\ z = join "/" (seen ++ before ++ [part])
    /\ i = join "/" after.
Proof.
  revert seen. induction rest as [|part rest IH]; intros seen H; [discriminate|].
  simpl in H. destruct (endswith (lower part) ".zip") eqn:E.
  - injection H as <- <-. exists [], part, rest. repeat split; auto.
  - apply IH in H as (before & q & after & -> & Hq & Hb & -> & ->).
    exists (part :: before), q, after. repeat split; auto.
    now rewrite <- app_assoc.
Qed.

Lemma split_zip_path_truthy p z :
  fst (split_zip_path p) = Some z -> truthy z = true.
Proof.
  unfold split_zip_path.
  destruct (split_zip_loop [] (split "/" (normalize_path p)))
    as [[z' i]|] eqn:E; simpl; [|discriminate].
  intros [= ->]. apply split_zip_loop_found in E
    as (before & part & after & _ & Hp & _ & -> & _).
  apply truthy_nonempty. rewrite app_assoc.
  apply join_snoc_nonempty. eapply endswith_zip_nonempty; eauto.
Qed.

(** The scan returns the longest candidate that [find] accepts. *)
Lemma scan_prefixes_longest find parts i k h :
  1 <= k <= i ->
  find (join "/" (take k parts)) = Some h ->
  (forall j, k < j <= i -> find (join "/" (take j parts)) = None) ->
  scan_prefixes find parts i = Some (h, join "/" (drop k parts)).
Proof.
  induction i as [|i IH]; intros Hk Hf Hn; [lia|].
  cbn [scan_prefixes].
  destruct (decide (k = S i)) as [->|Hne].
  - now rewrite Hf.
  - rewrite Hn by lia. apply IH; [lia|assumption|]. intros j Hj. apply Hn. lia.
Qed.

Lemma scan_prefixes_none find parts i :
  (forall j, 1 <= j <= i -> find (join "/" (take j parts)) = None) ->
  scan_prefixes find parts i = None.
Proof.
  induction i as [|i IH]; intros Hn; [reflexivity|].
  cbn [scan_prefixes]. rewrite Hn by lia. apply IH. intros j Hj. apply Hn. lia.
Qed.

Lemma scan_prefixes_sound find parts i h r :
  scan_prefixes find parts i = Some (h, r) ->
  exists k, 1 <= k <= i
    /\ find (join "/" (take k parts)) = Some h
    /\ r = join "/" (drop k parts)
    /\ forall j, k < j <= i -> find (join "/" (take j parts)) = None.
Proof.
  induction i as [|i IH]; [discriminate|].
  cbn [scan_prefixes].
  destruct (find (join "/" (take (S i) parts))) as [h'|] eqn:E.
  - intros [= <- <-]. exists (S i). repeat split; auto; lia.
  - intros H. apply IH in H as (k & Hk & Hf & -> & Hn).
    exists k. repeat split; auto; try lia.
    intros j Hj. destruct (decide (j = S i)) as [->|]; [assumption|].
    apply Hn. lia.
Qed.

(** C4. [find_longest_match_handle] tries the prefixes of the path from
    the longest to the shortest and returns at the first registered
    one: when the prefix of [k] components is a registry key and no
    longer prefix is, the handle registered under it is returned with
    the remaining components as internal path.  In particular, with
    ["a.zip"] and ["a.zip/b.zip"] both registered (in either order),
    ["a.zip/b.zip/x.txt"] gives the handle of ["a.zip/b.zip"] and the
    internal path ["x.txt"]. *)
Theorem find_longest_match_longest_first :
  (forall resolve p reg k h,
      1 <= k <= length (split "/" (normalize_path p)) ->
      dict_get reg (join "/" (take k (split "/" (normalize_path p))))
        = Some h ->
      (forall j, k < j <= length (split "/" (normalize_path p)) ->
         dict_get reg (join "/" (take j (split "/" (normalize_path p))))
           = None) ->
      find_longest_match_handle resolve p reg
        = (Some h, join "/" (drop k (split "/" (normalize_path p)))))
  /\ (forall resolve h1 h2,
        find_longest_match_handle resolve "a.zip/b.zip/x.txt"
          [("a.zip", h1); ("a.zip/b.zip", h2)] = (Some h2, "x.txt")
        /\ find_longest_match_handle resolve "a.zip/b.zip/x.txt"
             [("a.zip/b.zip", h2); ("a.zip", h1)] = (Some h2, "x.txt")).
Proof.
  split.
  - intros resolve p reg k h Hk Hf Hn. unfold find_longest_match_handle.
    now rewrite (scan_prefixes_longest _ _ _ k h).
  - intros resolve h1 h2. split; reflexivity.
Qed.

Lemma find_longest_match_longest_first_witness :
  find_longest_match_handle Sample.sample_resolve "a.zip\b.zip/x.txt"
    [("a.zip", mkHandle "a.zip" "/tmp/z_lib_a" ModeRW);
     ("a.zip/b.zip", mkHandle "a.zip/b.zip" "/tmp/z_lib_b" ModeR)]
  = (Some (mkHandle "a.zip/b.zip" "/tmp/z_lib_b" ModeR), "x.txt").
Proof.
  apply (proj1 find_longest_match_longest_first Sample.sample_resolve
           "a.zip\b.zip/x.txt" _ 2).
  - simpl. lia.
  - reflexivity.
  - simpl. intros j Hj. assert (j = 3) as -> by lia. reflexivity.
Defined.

(** C5. When no registry key matches the path: if [split_zip_path]
    finds a prefix whose last component ends in [.zip], resolution
    fails with the archive-not-loaded error, whose message names that
    prefix, and this is not the not-found error; otherwise the result
    is the absolute physical path of the argument, as the file system
    resolves it. *)
Theorem resolve_unmatched resolve p reg :
  fst (find_longest_match_handle resolve p reg) = None ->
  match fst (split_zip_path p) with
  | Some z =>
      resolve_to_real_path resolve p reg
        = Raise (ZipNotLoadedError
                   ("ZIP file '" +:+ z +:+ "' is not loaded (or path '"
                      +:+ p +:+ "' is invalid)."))
      /\ (forall msg, resolve_to_real_path resolve p reg
                      <> Raise (FileNotFoundError msg))
  | None =>
      forall abs, resolve p = Some abs ->
                  resolve_to_real_path resolve p reg = Ok abs
  end.
Proof.
  intros Hnone. unfold resolve_to_real_path.
  destruct (find_longest_match_handle resolve p reg) as [[h|] i];
    [discriminate|].
  destruct (fst (split_zip_path p)) as [z|] eqn:E.
  - rewrite (split_zip_path_truthy _ _ E). split; [reflexivity|].
    intros msg. discriminate.
  - intros abs ->. reflexivity.
Qed.

Lemma resolve_unmatched_witness :
  resolve_to_real_path Sample.sample_resolve "missing.zip/x" []
    = Raise (ZipNotLoadedError
               "ZIP file 'missing.zip' is not loaded (or path 'missing.zip/x' is invalid).")
  /\ resolve_to_real_path Sample.sample_resolve "docs/readme.txt"
       Sample.sample_registry = Ok "/home/docs/readme.txt".
Proof.
  split.
  - apply (resolve_unmatched Sample.sample_resolve "missing.zip/x" []).
    reflexivity.
  - apply (resolve_unmatched Sample.sample_resolve "docs/readme.txt"
             Sample.sample_registry); reflexivity.
Defined.

End PathResolverFacts.

(** ** The walk *)

Module WalkerFacts.
Import PyStr PathResolver Walker.

Local Open Scope nat_scope.
Local Open Scope list_scope.

Section Facts.

Variable fs : filesystem.
Variable loaded_zips : registry.
Variable topdown onerror followlinks : bool.
Variable consumer :
  string -> list string -> list string -> list string * list string.

Abbreviation yield_to := (do_yield consumer).
Abbreviation local_dir := (local_directory fs loaded_zips topdown
                             followlinks consumer).
Abbreviation walk_rec := (_walk_recursive fs loaded_zips topdown onerror
                        followlinks consumer).
Abbreviation classify := (classify_entry fs loaded_zips followlinks).
Abbreviation kind := (kind_of fs loaded_zips followlinks).
Abbreviation pick := (select fs loaded_zips followlinks).

Lemma walk_halted fuel v st :
  running st = false -> walk_rec fuel v st = st.
Proof. intros H. destruct fuel; simpl; now rewrite H. Qed.

Lemma read_store_eq l v st : read l (store l v st) = v.
Proof. unfold read, store; simpl. now rewrite lookup_insert_eq. Qed.

Lemma read_store_ne l l' v st :
  l <> l' -> read l' (store l v st) = read l' st.
Proof. intros H. unfold read, store; simpl. now rewrite lookup_insert_ne. Qed.

Lemma read_append_eq l x st : read l (append l x st) = read l st ++ [x].
Proof. apply read_store_eq. Qed.

Lemma read_append_ne l l' x st :
  l <> l' -> read l' (append l x st) = read l' st.
Proof. apply read_store_ne. Qed.

Lemma filter_kind_cons k real_top n entries :
  pick k real_top (n :: entries)
  = (if kind_eqb (kind real_top n) k then [n] else [])
      ++ pick k real_top entries.
Proof.
  unfold select. simpl. now destruct (kind_eqb _ k).
Qed.

(** The loop over the entries leaves in the three list objects what
    the filters say, and touches nothing else. *)
Lemma classify_fold real_top a b c entries : forall st,
  a <> b -> a <> c -> b <> c ->
  running st = true ->
  forallb (resolvable fs real_top) entries = true ->
  let st' := foldl (classify real_top a b c) st entries in
  read a st' = read a st ++ pick IsSubdir real_top entries
  /\ read b st' = read b st ++ pick IsFile real_top entries
  /\ read c st' = read c st ++ pick IsMount real_top entries
  /\ trace st' = trace st /\ fresh st' = fresh st
  /\ running st' = true.
Proof.
  induction entries as [|n entries IH]; intros st Hab Hac Hbc Hrun Hres;
    cbv zeta.
  - simpl. rewrite !app_nil_r. repeat split; auto.
  - simpl in Hres. apply andb_prop in Hres as [Hn Hres].
    cbn [foldl]. rewrite !filter_kind_cons.
    unfold resolvable in Hn.
    assert (Hstep :
      classify real_top a b c st n
      = match kind real_top n with
        | IsSubdir => append a n st
        | IsMount => append c n st
        | IsFile => append b n st
        end).
    { unfold classify_entry, kind_of, is_registry_key. rewrite Hrun. simpl.
      destruct (fs_resolve fs (os_join real_top n)); [|discriminate].
      destruct (fs_is_dir fs (os_join real_top n)
                && negb (fs_is_symlink fs (os_join real_top n)
                         && negb followlinks)); [reflexivity|].
      now destruct (dict_mem loaded_zips (normalize_path s)). }
    rewrite Hstep.
    destruct (kind real_top n); simpl kind_eqb; cbn [app].
    + destruct (IH (append a n st)) as (Ha & Hb & Hc & Ht & Hf & Hr); auto.
      rewrite Ha, Hb, Hc, Ht, Hf, Hr.
      rewrite read_append_eq, !read_append_ne by congruence.
      rewrite <- !app_assoc. repeat split; auto.
    + destruct (IH (append c n st)) as (Ha & Hb & Hc & Ht & Hf & Hr); auto.
      rewrite Ha, Hb, Hc, Ht, Hf, Hr.
      rewrite read_append_eq, !read_append_ne by congruence.
      rewrite <- !app_assoc. repeat split; auto.
    + destruct (IH (append b n st)) as (Ha & Hb & Hc & Ht & Hf & Hr); auto.
      rewrite Ha, Hb, Hc, Ht, Hf, Hr.
      rewrite read_append_eq, !read_append_ne by congruence.
      rewrite <- !app_assoc. repeat split; auto.
Qed.

(** **** List objects out of reach *)

Lemma below_refl base st : below base st st.
Proof. split; auto. Qed.

Lemma below_trans base s1 s2 s3 :
  below base s1 s2 -> below base s2 s3 -> below base s1 s3.
Proof.
  intros [H1 R1] [H2 R2]. split; [lia|].
  intros l Hl. now rewrite R2, R1.
Qed.

Lemma alloc_spec v st l st' :
  alloc v st = (l, st') ->
  l = fresh st /\ fresh st' = S (fresh st) /\ read l st' = v
  /\ (forall l', l' <> l -> read l' st' = read l' st)
  /\ trace st' = trace st /\ running st' = running st.
Proof.
  unfold alloc. intros [= <- <-]. unfold read, running; simpl.
  rewrite lookup_insert_eq. repeat split; auto.
  intros l' Hl. now rewrite lookup_insert_ne.
Qed.

Lemma store_below base l v st :
  base <= l -> below base st (store l v st).
Proof.
  intros Hl. split; [reflexivity|].
  intros l' Hl'. apply read_store_ne. lia.
Qed.

Lemma emit_below base e st : below base st (emit e st).
Proof. split; auto. Qed.

Lemma stop_below base h st : below base st (stop h st).
Proof. split; auto. Qed.

Lemma report_below base msg st : below base st (report onerror msg st).
Proof. unfold report. destruct onerror; [apply emit_below|apply below_refl]. Qed.

Lemma do_yield_spec root dl fl st :
  let st' := yield_to root dl fl st in
  trace st' = trace st ++ [Yield root (read dl st) (read fl st)]
  /\ fresh st' = fresh st /\ running st' = running st
  /\ forall l, l <> dl -> l <> fl -> read l st' = read l st.
Proof.
  unfold do_yield. destruct (consumer root _ _) as [ds' fl'].
  cbv zeta. repeat split; auto.
  intros l H1 H2. now rewrite !read_store_ne by congruence.
Qed.

Lemma do_yield_below base root dl fl st :
  base <= dl -> base <= fl -> below base st (yield_to root dl fl st).
Proof.
  intros H1 H2. destruct (do_yield_spec root dl fl st) as (_ & Hf & _ & Hr).
  split; [lia|]. intros l Hl. apply Hr; lia.
Qed.

Lemma foldl_below {A} base (f : wstate -> A -> wstate) xs : forall st,
  (forall s x, base <= fresh s -> below base s (f s x)) ->
  base <= fresh st -> below base st (foldl f st xs).
Proof.
  induction xs as [|x xs IH]; intros st Hf Hst; [apply below_refl|].
  cbn [foldl]. pose proof (Hf st x Hst) as Hx.
  eapply below_trans; [exact Hx|]. apply IH; auto. destruct Hx. lia.
Qed.

Lemma classify_below base real_top a b c st n :
  base <= a -> base <= b -> base <= c ->
  below base st (classify real_top a b c st n).
Proof.
  intros Ha Hb Hc. unfold classify_entry.
  destruct (negb (running st)); [apply below_refl|].
  destruct (fs_resolve fs _); [|apply stop_below].
  destruct (_ && _); [now apply store_below|].
  destruct (dict_mem _ _); now apply store_below.
Qed.

Lemma archive_body_below base h root dl fl st :
  base <= dl -> base <= fl ->
  below base st (archive_body loaded_zips consumer h root dl fl st).
Proof.
  intros H1 H2. unfold archive_body.
  destruct (relative_to _ _); [|apply below_refl].
  destruct (zip_key_of _ _); [|apply stop_below].
  now apply do_yield_below.
Qed.

Lemma os_walk_below base body fuel : forall top st,
  (forall root dl fl s, base <= dl -> base <= fl ->
                        below base s (body root dl fl s)) ->
  base <= fresh st ->
  below base st (os_walk fs topdown onerror followlinks fuel body top st).
Proof.
  induction fuel as [|fuel IH]; intros top st Hbody Hst; cbn [os_walk].
  - destruct (negb (running st)); [apply below_refl|apply stop_below].
  - destruct (negb (running st)); [apply below_refl|].
    destruct (fs_listdir fs top) as [names|]; [|apply report_below].
    destruct (alloc _ st) as [dirs s1] eqn:E1.
    destruct (alloc _ s1) as [nondirs s2] eqn:E2.
    apply alloc_spec in E1 as (-> & F1 & _ & R1 & _).
    apply alloc_spec in E2 as (-> & F2 & _ & R2 & _).
    assert (B2 : below base st s2).
    { split; [lia|]. intros l Hl. rewrite R2, R1 by lia. reflexivity. }
    destruct topdown.
    + assert (B3 : below base s2 (body top (fresh st) (fresh s1) s2))
        by (apply Hbody; lia).
      eapply below_trans; [exact B2|]. eapply below_trans; [exact B3|].
      apply foldl_below; [|destruct B3; lia].
      intros s x Hs. destruct (_ || _); [now apply IH|apply below_refl].
    + set (s3 := foldl _ s2 _).
      assert (B3 : below base s2 s3).
      { apply foldl_below; [|lia]. intros s x Hs. now apply IH. }
      eapply below_trans; [exact B2|].
      destruct (running s3); [|exact B3].
      eapply below_trans; [exact B3|]. apply Hbody; lia.
Qed.

Lemma local_directory_below base self v real_top entries st :
  (forall c s, base <= fresh s -> below base s (self c s)) ->
  base <= fresh st ->
  below base st (local_dir self v real_top entries st).
Proof.
  intros Hself Hst. unfold local_directory.
  destruct (alloc [] st) as [a s1] eqn:E1.
  destruct (alloc [] s1) as [b s2] eqn:E2.
  destruct (alloc [] s2) as [c s3] eqn:E3.
  apply alloc_spec in E1 as (-> & F1 & _ & R1 & _).
  apply alloc_spec in E2 as (-> & F2 & _ & R2 & _).
  apply alloc_spec in E3 as (-> & F3 & _ & R3 & _).
  assert (B3 : below base st s3).
  { split; [lia|]. intros l Hl. rewrite R3, R2, R1 by lia. reflexivity. }
  set (s4 := foldl _ s3 entries).
  assert (B4 : below base s3 s4).
  { apply foldl_below; [|lia]. intros s x _. apply classify_below; lia. }
  eapply below_trans; [exact B3|].
  destruct (negb (running s4)); [exact B4|].
  eapply below_trans; [exact B4|].
  destruct (alloc _ s4) as [vd s5] eqn:E5.
  apply alloc_spec in E5 as (-> & F5 & _ & R5 & _).
  assert (B5 : below base s4 s5).
  { split; [lia|]. intros l Hl. apply R5. destruct B4. lia. }
  eapply below_trans; [exact B5|].
  assert (Hs5 : base <= fresh s5) by (destruct B4; lia).
  set (s6 := if topdown then _ else s5).
  assert (B6 : below base s5 s6).
  { subst s6. destruct topdown; [|apply below_refl].
    apply do_yield_below; destruct B4; lia. }
  eapply below_trans; [exact B6|].
  assert (Hs6 : base <= fresh s6) by (destruct B6; lia).
  set (s7 := foldl _ s6 (read (fresh st) s6)).
  assert (B7 : below base s6 s7).
  { apply foldl_below; auto. }
  eapply below_trans; [exact B7|].
  assert (Hs7 : base <= fresh s7) by (destruct B7; lia).
  set (s8 := foldl _ s7 (read (fresh s2) s7)).
  assert (B8 : below base s7 s8).
  { apply foldl_below; auto. intros s x Hs.
    destruct (negb (running s)); [apply below_refl|].
    destruct (fs_resolve fs _); [auto|apply stop_below]. }
  eapply below_trans; [exact B8|].
  destruct topdown; [apply below_refl|].
  destruct (running s8); [|apply below_refl].
  apply do_yield_below; destruct B4; lia.
Qed.

Lemma walk_below fuel : forall v st base,
  base <= fresh st -> below base st (walk_rec fuel v st).
Proof.
  induction fuel as [|fuel IH]; intros v st base Hst;
    cbn [_walk_recursive].
  - destruct (negb (running st)); [apply below_refl|apply stop_below].
  - destruct (negb (running st)); [apply below_refl|].
    eapply below_trans; [apply (emit_below base (Call v))|].
    destruct (find_longest_match_handle _ _ _) as [[h|] i].
    + apply os_walk_below; auto.
      intros. now apply archive_body_below.
    + destruct (fs_resolve fs v); [|apply stop_below].
      destruct (negb (fs_is_dir fs s)); [apply report_below|].
      destruct (fs_listdir fs s); [|apply report_below].
      apply local_directory_below; auto.
Qed.

Lemma select_resolvable k real_top entries :
  forallb (resolvable fs real_top) entries = true ->
  forallb (resolvable fs real_top) (pick k real_top entries) = true.
Proof.
  intros H. unfold select. induction entries as [|n es IH]; [reflexivity|].
  simpl in *. apply andb_prop in H as [Hn Hes].
  destruct (kind_eqb _ k); simpl; rewrite ?Hn; auto.
Qed.

(** The loop over the mount points is a plain iteration over their
    resolved paths. *)
Lemma mount_loop self real_top zs : forall st,
  (forall c s, running s = false -> self c s = s) ->
  forallb (resolvable fs real_top) zs = true ->
  foldl (fun st zname =>
           if negb (running st) then st else
           match fs_resolve fs (os_join real_top zname) with
           | None => stop (Raised (OSError zname)) st
           | Some abs => self (normalize_path abs) st
           end) st zs
  = foldl (fun s c => self c s) st (map (mount_child fs real_top) zs).
Proof.
  induction zs as [|z zs IH]; intros st Hself Hres; [reflexivity|].
  simpl in Hres. apply andb_prop in Hres as [Hz Hres].
  cbn [foldl map]. rewrite <- IH by assumption. f_equal.
  unfold mount_child. unfold resolvable in Hz.
  destruct (fs_resolve fs (os_join real_top z)); [|discriminate].
  destruct (running st) eqn:Hr; cbn [negb]; [reflexivity|].
  now rewrite Hself.
Qed.

Lemma subdir_loop (self : string -> wstate -> wstate) v ds : forall st,
  foldl (fun st d => self (v +:+ "/" +:+ d) st) st ds
  = foldl (fun s c => self c s) st (map (fun d => v +:+ "/" +:+ d) ds).
Proof.
  induction ds as [|d ds IH]; intros st; [reflexivity|].
  cbn [foldl map]. apply IH.
Qed.

(** The shape of a visit of a real directory.  Whatever the consumer
    does with the tuple it is handed, the visit goes on into every
    ordinary subdirectory [d] as [v/d] and then into every mount
    point under its resolved path. *)
Lemma local_directory_shape self v real_top entries st :
  (forall c s, running s = false -> self c s = s) ->
  (forall c s base, base <= fresh s -> below base s (self c s)) ->
  running st = true ->
  forallb (resolvable fs real_top) entries = true ->
  exists st1,
    trace st1
    = trace st
        ++ (if topdown
            then [Yield v (pick IsSubdir real_top entries
                             ++ pick IsMount real_top entries)
                          (pick IsFile real_top entries)]
            else [])
    /\ running st1 = true
    /\ forall st2,
         st2 = foldl (fun s c => self c s) st1
                 (map (fun d => v +:+ "/" +:+ d)
                      (pick IsSubdir real_top entries)
                    ++ map (mount_child fs real_top)
                         (pick IsMount real_top entries)) ->
         (topdown = true ->
          local_dir self v real_top entries st = st2)
         /\ (topdown = false ->
             trace (local_dir self v real_top entries st)
             = trace st2
                 ++ (if running st2
                     then [Yield v (pick IsSubdir real_top entries
                                      ++ pick IsMount real_top entries)
                                   (pick IsFile real_top entries)]
                     else [])).
Proof.
  intros Hhalt Hframe Hrun Hall. unfold local_directory.
  destruct (alloc [] st) as [a s1] eqn:E1.
  destruct (alloc [] s1) as [b s2] eqn:E2.
  destruct (alloc [] s2) as [c s3] eqn:E3.
  apply alloc_spec in E1 as (-> & F1 & V1 & R1 & T1 & U1).
  apply alloc_spec in E2 as (-> & F2 & V2 & R2 & T2 & U2).
  apply alloc_spec in E3 as (-> & F3 & V3 & R3 & T3 & U3).
  destruct (classify_fold real_top (fresh st) (fresh s1) (fresh s2)
              entries s3) as (Ha & Hb & Hc & Ht & Hf & Hr);
    try lia; try congruence.
  set (s4 := foldl _ s3 entries) in *.
  rewrite R3, R2, V1 in Ha by lia.
  rewrite R3, V2 in Hb by lia.
  rewrite V3 in Hc. cbn [app] in Ha, Hb, Hc.
  rewrite Hr. cbn [negb].
  destruct (alloc _ s4) as [vd s5] eqn:E5.
  apply alloc_spec in E5 as (-> & F5 & V5 & R5 & T5 & U5).
  rewrite Ha, Hc in V5.
  assert (Ra5 : read (fresh st) s5 = pick IsSubdir real_top entries)
    by (rewrite R5 by lia; exact Ha).
  assert (Rb5 : read (fresh s1) s5 = pick IsFile real_top entries)
    by (rewrite R5 by lia; exact Hb).
  assert (Rc5 : read (fresh s2) s5 = pick IsMount real_top entries)
    by (rewrite R5 by lia; exact Hc).
  set (s6 := if topdown then _ else s5).
  assert (H6 : trace s6
               = trace st
                   ++ (if topdown
                       then [Yield v (pick IsSubdir real_top entries
                                        ++ pick IsMount real_top entries)
                                     (pick IsFile real_top entries)]
                       else [])
               /\ running s6 = true /\ fresh s6 = fresh s5
               /\ read (fresh st) s6 = pick IsSubdir real_top entries
               /\ read (fresh s2) s6 = pick IsMount real_top entries
               /\ (topdown = false -> s6 = s5)).
  { subst s6. destruct topdown.
    - destruct (do_yield_spec v (fresh s4) (fresh s1) s5)
        as (Ty & Fy & Uy & Ry).
      rewrite Ty, Fy, Uy, V5, Rb5, T5, Ht, T3, T2, T1.
      rewrite !Ry by lia. repeat split; auto; try congruence.
    - rewrite app_nil_r. repeat split; auto; congruence. }
  destruct H6 as (T6 & U6 & F6 & Ra6 & Rc6 & E6).
  exists s6. split; [exact T6|]. split; [exact U6|].
  intros st2 ->.
  rewrite Ra6, subdir_loop.
  set (s7 := foldl _ s6 (map _ (pick IsSubdir real_top entries))).
  assert (B7 : below (fresh s6) s6 s7).
  { apply foldl_below; [|lia]. intros s x Hs. now apply Hframe. }
  assert (Rc7 : read (fresh s2) s7 = pick IsMount real_top entries).
  { destruct B7 as [_ R7]. rewrite R7 by lia. exact Rc6. }
  rewrite Rc7, mount_loop; auto using select_resolvable.
  subst s7. rewrite <- foldl_app.
  set (s8 := foldl _ s6 (_ ++ _)).
  split; intros Htd; rewrite Htd; [reflexivity|].
  destruct (running s8); [|now rewrite app_nil_r].
  destruct (do_yield_spec v (fresh s4) (fresh s1) s8) as (Ty & _).
  assert (B8 : below (fresh s6) s6 s8).
  { apply foldl_below; [|lia]. intros s x Hs. now apply Hframe. }
  destruct B8 as [_ R8]. rewrite Ty, !R8 by lia.
  rewrite (E6 Htd), V5, Rb5. reflexivity.
Qed.

Lemma append_inj_l a b c : a +:+ b = a +:+ c -> b = c.
Proof. induction a as [|x a IH]; simpl; [auto|]. intros [= H]. auto. Qed.

Lemma in_select k real_top entries n :
  In n (pick k real_top entries)
  <-> In n entries /\ kind real_top n = k.
Proof.
  unfold select. rewrite filter_In.
  destruct (kind real_top n), k; simpl; intuition congruence.
Qed.

Lemma mount_child_registered real_top z :
  kind real_top z = IsMount ->
  dict_mem loaded_zips (mount_child fs real_top z) = true.
Proof.
  unfold kind_of, is_registry_key, mount_child.
  destruct (_ && _); [discriminate|].
  destruct (fs_resolve fs (os_join real_top z)); [|discriminate].
  destruct (dict_mem loaded_zips (normalize_path s)); [auto|discriminate].
Qed.

(** A visit of a real directory by [_walk_recursive]. *)
Lemma walk_real_directory fuel v st real_top entries :
  running st = true ->
  fst (find_longest_match_handle (fs_resolve fs) v loaded_zips) = None ->
  fs_resolve fs v = Some real_top ->
  fs_is_dir fs real_top = true ->
  fs_listdir fs real_top = Some entries ->
  forallb (resolvable fs real_top) entries = true ->
  exists st1,
    trace st1
    = trace st
        ++ Call v
           :: (if topdown
               then [Yield v (pick IsSubdir real_top entries
                                ++ pick IsMount real_top entries)
                             (pick IsFile real_top entries)]
               else [])
    /\ running st1 = true
    /\ forall st2,
         st2 = foldl (fun s c => walk_rec fuel c s) st1
                 (map (fun d => v +:+ "/" +:+ d)
                      (pick IsSubdir real_top entries)
                    ++ map (mount_child fs real_top)
                         (pick IsMount real_top entries)) ->
         (topdown = true -> walk_rec (S fuel) v st = st2)
         /\ (topdown = false ->
             trace (walk_rec (S fuel) v st)
             = trace st2
                 ++ (if running st2
                     then [Yield v (pick IsSubdir real_top entries
                                      ++ pick IsMount real_top entries)
                                   (pick IsFile real_top entries)]
                     else [])).
Proof.
  intros Hrun Hfind Hres Hdir Hls Hall.
  cbn [_walk_recursive]. rewrite Hrun. cbn [negb].
  destruct (find_longest_match_handle (fs_resolve fs) v loaded_zips)
    as [[h|] i]; [discriminate|].
  rewrite Hres, Hdir, Hls. cbn [negb].
  destruct (local_directory_shape (walk_rec fuel) v real_top entries
              (emit (Call v) st)) as (st1 & T1 & U1 & H1); auto.
  - intros c s. apply walk_halted.
  - intros c s base. apply walk_below.
  - exists st1. split; [|split; assumption].
    rewrite T1. cbn [emit trace]. now rewrite <- app_assoc.
Qed.

(** C7 (as amended).  In a top-down walk of a real directory [v],
    once the tuple of [v] is yielded the walk goes into every
    ordinary subdirectory [d] under the virtual path [v + "/" + d]
    and then into every mount point, in listing order; the virtual
    path of a mount point is not [v + "/" + name] but the normalised
    resolved absolute path of the entry, which is the registry key it
    matched.  Nothing the consumer does to the yielded lists changes
    this. *)
Theorem walk_topdown_children fuel v st real_top entries :
  topdown = true ->
  running st = true ->
  fst (find_longest_match_handle (fs_resolve fs) v loaded_zips) = None ->
  fs_resolve fs v = Some real_top ->
  fs_is_dir fs real_top = true ->
  fs_listdir fs real_top = Some entries ->
  forallb (resolvable fs real_top) entries = true ->
  exists st1,
    trace st1
    = trace st
        ++ [Call v;
            Yield v (pick IsSubdir real_top entries
                       ++ pick IsMount real_top entries)
                    (pick IsFile real_top entries)]
    /\ walk_rec (S fuel) v st
       = foldl (fun s c => walk_rec fuel c s) st1
           (map (fun d => v +:+ "/" +:+ d)
                (pick IsSubdir real_top entries)
              ++ map (mount_child fs real_top)
                   (pick IsMount real_top entries))
    /\ Forall (fun c => dict_mem loaded_zips c = true)
         (map (mount_child fs real_top)
              (pick IsMount real_top entries)).
Proof.
  intros Htd Hrun Hfind Hres Hdir Hls Hall.
  destruct (walk_real_directory fuel v st real_top entries)
    as (st1 & T1 & _ & H1); auto.
  exists st1. rewrite Htd in T1. split; [exact T1|]. split.
  - now apply (H1 _ eq_refl).
  - apply List.Forall_forall. intros c Hc.
    apply in_map_iff in Hc as (z & <- & Hz).
    apply in_select in Hz as [_ Hz]. now apply mount_child_registered.
Qed.

(** C8 (as amended).  With [followlinks] false, an entry of a real
    directory that is a symbolic link is never sorted among the
    ordinary subdirectories, also when it points to a directory: it
    is a mount point if its resolved path is a registry key and a
    file otherwise, in which case the yielded tuple lists it among
    the files and not among the subdirectories.  The walk does not
    go into it as [v + "/" + name]. *)
Theorem symlink_not_listed_as_subdir fuel v st real_top entries n :
  followlinks = false ->
  running st = true ->
  fst (find_longest_match_handle (fs_resolve fs) v loaded_zips) = None ->
  fs_resolve fs v = Some real_top ->
  fs_is_dir fs real_top = true ->
  fs_listdir fs real_top = Some entries ->
  forallb (resolvable fs real_top) entries = true ->
  In n entries ->
  fs_is_symlink fs (os_join real_top n) = true ->
  let sub_dirs := pick IsSubdir real_top entries in
  let mounts := pick IsMount real_top entries in
  let files := pick IsFile real_top entries in
  let children :=
    map (fun d => v +:+ "/" +:+ d) sub_dirs
      ++ map (mount_child fs real_top) mounts in
  ~ In n sub_dirs
  /\ ~ In (v +:+ "/" +:+ n) (map (fun d => v +:+ "/" +:+ d) sub_dirs)
  /\ (if is_registry_key fs loaded_zips real_top n
      then In n mounts
      else In n files /\ ~ In n (sub_dirs ++ mounts))
  /\ exists st1,
       trace st1
       = trace st
           ++ Call v
              :: (if topdown then [Yield v (sub_dirs ++ mounts) files]
                  else [])
       /\ forall st2,
            st2 = foldl (fun s c => walk_rec fuel c s) st1 children ->
            (topdown = true -> walk_rec (S fuel) v st = st2)
            /\ (topdown = false ->
                trace (walk_rec (S fuel) v st)
                = trace st2
                    ++ (if running st2
                        then [Yield v (sub_dirs ++ mounts) files]
                        else [])).
Proof.
  intros Hfl Hrun Hfind Hres Hdir Hls Hall Hn Hsym. cbv zeta.
  assert (Hk : kind real_top n
               = if is_registry_key fs loaded_zips real_top n
                 then IsMount else IsFile).
  { unfold kind_of. rewrite Hsym, Hfl. cbn [negb andb].
    now rewrite andb_false_r. }
  assert (Hnd : ~ In n (pick IsSubdir real_top entries)).
  { rewrite in_select. intros [_ Hd]. rewrite Hk in Hd.
    destruct (is_registry_key _ _ _ _); discriminate. }
  split; [exact Hnd|]. split.
  { intros Hin. apply in_map_iff in Hin as (d & Hd & Hin).
    apply append_inj_l, append_inj_l in Hd. now subst d. }
  split.
  { destruct (is_registry_key fs loaded_zips real_top n).
    - now apply in_select.
    - split; [now apply in_select|].
      rewrite in_app_iff, !in_select. intros [[_ H]|[_ H]];
        rewrite Hk in H; discriminate. }
  destruct (walk_real_directory fuel v st real_top entries)
    as (st1 & T1 & _ & H1); auto.
  exists st1. split; [exact T1|exact H1].
Qed.

End Facts.

Import Sample.

Lemma walk_topdown_children_witness :
  exists st1,
    trace st1
    = trace init
        ++ [Call "data";
            Yield "data"
              (select sample_fs sample_registry false IsSubdir "/home/data"
                 ["d"; "link"; "pack.zip"; "n.txt"]
               ++ select sample_fs sample_registry false IsMount
                    "/home/data" ["d"; "link"; "pack.zip"; "n.txt"])
              (select sample_fs sample_registry false IsFile "/home/data"
                 ["d"; "link"; "pack.zip"; "n.txt"])]
    /\ _walk_recursive sample_fs sample_registry true true false
         (prune "pack.zip") 10 "data" init
       = foldl (fun s c =>
                  _walk_recursive sample_fs sample_registry true true false
                    (prune "pack.zip") 9 c s) st1
           (map (fun d => "data" +:+ "/" +:+ d)
                (select sample_fs sample_registry false IsSubdir
                   "/home/data" ["d"; "link"; "pack.zip"; "n.txt"])
              ++ map (mount_child sample_fs "/home/data")
                   (select sample_fs sample_registry false IsMount
                      "/home/data" ["d"; "link"; "pack.zip"; "n.txt"]))
    /\ Forall (fun c => dict_mem sample_registry c = true)
         (map (mount_child sample_fs "/home/data")
              (select sample_fs sample_registry false IsMount "/home/data"
                 ["d"; "link"; "pack.zip"; "n.txt"])).
Proof.
  apply (walk_topdown_children sample_fs sample_registry true true false
           (prune "pack.zip") 9 "data" init "/home/data"
           ["d"; "link"; "pack.zip"; "n.txt"]); reflexivity.
Defined.

(** The claim of C7 as first stated fails for mount points: walking
    the relative path ["data"], the mount point ["pack.zip"] is
    entered as ["/home/data/pack.zip"], not as ["data/pack.zip"]. *)
Lemma mount_child_is_not_joined_path :
  let st := walk sample_fs sample_registry true true false passive 10
              "data" in
  halted st = None
  /\ hd_error (yields st)
     = Some ("data", ["d"; "pack.zip"], ["link"; "n.txt"])
  /\ calls st = ["data"; "data/d"; "/home/data/pack.zip"]
  /\ ~ In ("data" +:+ "/" +:+ "pack.zip") (calls st).
Proof.
  vm_compute. repeat split; try reflexivity.
  intros [H|[H|[H|[]]]]; discriminate.
Qed.

Lemma symlink_not_listed_as_subdir_witness :
  ~ In "link" (select sample_fs sample_registry false IsSubdir "/home/data"
                 ["d"; "link"; "pack.zip"; "n.txt"])
  /\ In "link" (select sample_fs sample_registry false IsFile "/home/data"
                  ["d"; "link"; "pack.zip"; "n.txt"]).
Proof.
  pose proof (symlink_not_listed_as_subdir sample_fs sample_registry true
                true false passive 9 "data" init "/home/data"
                ["d"; "link"; "pack.zip"; "n.txt"] "link"
                eq_refl eq_refl eq_refl eq_refl eq_refl eq_refl eq_refl
                (or_intror (or_introl eq_refl)) eq_refl) as H.
  cbv zeta in H. destruct H as (H1 & _ & H3 & _).
  split; [exact H1|]. exact (proj1 H3).
Defined.

(** The claim of C8 as first stated fails: [link] is a symbolic link to
    a directory, and with [followlinks] false the tuple of ["data"]
    lists it among the files, not among the subdirectories. *)
Lemma symlinked_directory_listed_as_file :
  fs_is_dir sample_fs "/home/data/link" = true
  /\ fs_is_symlink sample_fs "/home/data/link" = true
  /\ hd_error (yields (walk sample_fs sample_registry true true false
                         passive 10 "data"))
     = Some ("data", ["d"; "pack.zip"], ["link"; "n.txt"])
  /\ ~ In "link" ["d"; "pack.zip"]
  /\ last (yields (walk sample_fs sample_registry false true false
                     passive 10 "data"))
     = Some ("data", ["d"; "pack.zip"], ["link"; "n.txt"]).
Proof.
  vm_compute. repeat split; try reflexivity.
  intros [H|[H|[]]]; discriminate.
Qed.

(** C1, the code at a failing input.  The consumer removes ["d"] (or
    ["pack.zip"]) from the subdirectory list it is handed for
    ["data"]; the walk still goes into ["data/d"] (or into the
    archive) and yields its tuples, exactly as with a consumer that
    edits nothing. *)
Theorem pruned_entries_are_still_walked :
  let run c := walk sample_fs sample_registry true true false c 10 "data" in
  fst (prune "d" "data" ["d"; "pack.zip"] ["link"; "n.txt"]) = ["pack.zip"]
  /\ fst (prune "pack.zip" "data" ["d"; "pack.zip"] ["link"; "n.txt"])
     = ["d"]
  /\ trace (run (prune "d")) = trace (run passive)
  /\ trace (run (prune "pack.zip")) = trace (run passive)
  /\ trace (run passive)
     = [Call "data"; Yield "data" ["d"; "pack.zip"] ["link"; "n.txt"];
        Call "data/d"; Yield "data/d" [] ["f.txt"];
        Call "/home/data/pack.zip";
        Yield "/home/data/pack.zip" ["sub"] ["inner.txt"];
        Yield "/home/data/pack.zip/sub" [] ["g.txt"]]
  /\ halted (run (prune "d")) = None
  /\ halted (run (prune "pack.zip")) = None.
Proof. vm_compute. repeat split; reflexivity. Qed.

(** The archive-backed branch hands on the lists of [os.walk] itself,
    and there the same edit does prune: without ["sub"] in the list,
    ["/home/data/pack.zip/sub"] is not visited. *)
Lemma archive_branch_honours_pruning :
  yields (walk sample_fs sample_registry true true false (prune "sub") 10
            "data")
  = [("data", ["d"; "pack.zip"], ["link"; "n.txt"]);
     ("data/d", [], ["f.txt"]);
     ("/home/data/pack.zip", ["sub"], ["inner.txt"])].
Proof. vm_compute. reflexivity. Qed.

End WalkerFacts.

(** ** File name decoding *)

Module CodecFacts.
Import Codec.

Local Open Scope Z_scope.
Local Open Scope list_scope.

(** Code page 437 gives every byte a character of its own, so encoding
    what was decoded returns the bytes. *)
Lemma cp437_encode_decode_byte b :
  cp437_encode_char (cp437_decode_byte b) = Some b.
Proof. destruct b; vm_compute; reflexivity. Qed.

Lemma cp437_encode_decode raw :
  cp437_encode (cp437_decode raw) = Some raw.
Proof.
  induction raw as [|b raw IH]; [reflexivity|].
  cbn [cp437_decode map cp437_encode].
  rewrite cp437_encode_decode_byte.
  change (map cp437_decode_byte raw) with (cp437_decode raw).
  now rewrite IH.
Qed.

(** Bit 11 of the flags is what the mask selects. *)
Lemma flag_utf8_bit flags :
  (Z.land flags _FLAG_UTF8 =? 0) = negb (Z.testbit flags 11).
Proof.
  change _FLAG_UTF8 with (2 ^ 11).
  destruct (Z.testbit flags 11) eqn:E; cbn [negb].
  - apply Z.eqb_neq. intros H.
    assert (Hb : Z.testbit (Z.land flags (2 ^ 11)) 11 = true).
    { rewrite Z.land_spec, E, Z.pow2_bits_true by lia. reflexivity. }
    rewrite H in Hb. now rewrite Z.bits_0 in Hb.
  - apply Z.eqb_eq. apply Z.bits_inj'. intros n Hn.
    rewrite Z.land_spec, Z.bits_0.
    destruct (Z.eq_dec n 11) as [->|Hne].
    + now rewrite E.
    + rewrite Z.pow2_bits_false by lia. apply andb_false_r.
Qed.

(** C2.  The name of an entry is decoded as follows.  With the UTF-8
    flag (bit 11) set, it is the name as the archive reader decoded it.
    With the flag clear, where the reader decoded the stored bytes
    [raw] with code page 437, encoding the name gives [raw] back and
    the result is [raw] decoded with code page 932; if that decoding
    fails the result is the CP437-decoded name itself.  In no case is
    an exception raised. *)
Theorem decode_zip_filename_rule dbcs info :
  (Z.testbit (flag_bits info) 11 = true ->
   _decode_zip_filename dbcs info = Ok (filename info))
  /\ (Z.testbit (flag_bits info) 11 = false ->
      forall raw,
        filename info = cp437_decode raw ->
        cp437_encode (filename info) = Some raw
        /\ _decode_zip_filename dbcs info
           = Ok (match cp932_decode dbcs raw with
                 | Some s => s
                 | None => cp437_decode raw
                 end)).
Proof.
  unfold _decode_zip_filename. rewrite flag_utf8_bit, negb_involutive.
  split; intros Hbit; rewrite Hbit; [reflexivity|].
  intros raw Hraw. rewrite Hraw, cp437_encode_decode.
  split; [reflexivity|]. now destruct (cp932_decode dbcs raw).
Qed.

Lemma decode_zip_filename_rule_witness :
  _decode_zip_filename dbcs_excerpt
    (mkInfo [0xf4; 0xb7; 0xfb; 0x7b; 0xee; 0x3a9] 0)
  = Ok [0x65e5; 0x672c; 0x8a9e]
  /\ _decode_zip_filename dbcs_excerpt (mkInfo [0xf4; 0xb7; 0xfb] 0)
     = Ok [0xf4; 0xb7; 0xfb]
  /\ _decode_zip_filename dbcs_excerpt (mkInfo [0x65e5; 0x672c] 0x808)
     = Ok [0x65e5; 0x672c].
Proof.
  split; [|split].
  - apply (proj2 (decode_zip_filename_rule dbcs_excerpt
                    (mkInfo [0xf4; 0xb7; 0xfb; 0x7b; 0xee; 0x3a9] 0))
             eq_refl
             [Byte.x93; Byte.xfa; Byte.x96; Byte.x7b; Byte.x8c; Byte.xea]
             eq_refl).
  - apply (proj2 (decode_zip_filename_rule dbcs_excerpt
                    (mkInfo [0xf4; 0xb7; 0xfb] 0))
             eq_refl [Byte.x93; Byte.xfa; Byte.x96] eq_refl).
  - apply (proj1 (decode_zip_filename_rule dbcs_excerpt
                    (mkInfo [0x65e5; 0x672c] 0x808)) eq_refl).
Defined.

(** A name made of ASCII characters is left alone, flag or no flag. *)
Lemma byte_of_ascii u :
  0 <= u < 128 ->
  exists b, Byte.of_N (Z.to_N u) = Some b /\ byte_val b = u.
Proof.
  intros Hu. destruct (Byte.of_N (Z.to_N u)) as [b|] eqn:E.
  - exists b. split; [reflexivity|]. unfold byte_val.
    apply Byte.to_of_N in E. rewrite E. lia.
  - apply Byte.of_N_None_iff in E. lia.
Qed.

Lemma ascii_round_trip dbcs name :
  forallb (fun c => (0 <=? c) && (c <? 128)) name = true ->
  exists raw, cp437_encode name = Some raw
              /\ cp932_decode dbcs raw = Some name.
Proof.
  induction name as [|u name IH]; intros H.
  - exists []. split; reflexivity.
  - cbn [forallb] in H. apply andb_prop in H as [Hu H].
    destruct (IH H) as (raw & E1 & E2).
    assert (Hu' : 0 <= u < 128) by lia.
    destruct (byte_of_ascii u Hu') as (b & Hb & Hv).
    exists (b :: raw). cbn [cp437_encode]. unfold cp437_encode_char.
    rewrite Hu, Hb, E1. split; [reflexivity|].
    cbn [cp932_decode]. rewrite Hv.
    replace (u <=? 0x80) with true by lia. now rewrite E2.
Qed.

Lemma decode_ascii_name dbcs name flags :
  forallb (fun c => (0 <=? c) && (c <? 128)) name = true ->
  _decode_zip_filename dbcs (mkInfo name flags) = Ok name.
Proof.
  intros H. unfold _decode_zip_filename. cbn [filename flag_bits].
  destruct (negb _); [reflexivity|].
  destruct (ascii_round_trip dbcs name H) as (raw & -> & ->). reflexivity.
Qed.

End CodecFacts.

(** ** Opening and closing archives *)

Module BackendFacts.
Import Codec Backend SampleArchive.

Local Open Scope nat_scope.
Local Open Scope list_scope.

Section Closing.

Variable scandir : forall A : Type, list (pystr * A) -> list (pystr * A).

Lemma build_with_rmtree leftover f wd :
  build scandir (with_rmtree leftover f) wd = build scandir f wd.
Proof. reflexivity. Qed.

Lemma save_archive_with_rmtree leftover f h save d :
  save_archive scandir (with_rmtree leftover f) h save d
  = save_archive scandir f h save d.
Proof. reflexivity. Qed.

(** The body of [close] never touches the working directory. *)
Lemma save_archive_workdir f h save d :
  workdir (fst (save_archive scandir f h save d)) = workdir d.
Proof.
  unfold save_archive.
  destruct save; [|reflexivity].
  destruct (mode h); [reflexivity|].
  destruct (workdir d) as [wd|] eqn:Ew; [|cbn; congruence].
  destruct (negb (parent_exists d) && mkdir_fails f); [cbn; congruence|].
  destruct (mkstemp_fails f); [cbn; congruence|].
  unfold rewrite_archive.
  destruct (build scandir f wd) as [written [e|]]; cbn.
  - destruct (remove_fails f); cbn; congruence.
  - destruct (move_fails f); cbn; [|congruence].
    destruct (remove_fails f); cbn; congruence.
Qed.

(** C9.  Whatever [close] does before (a rewrite that succeeds, one
    that fails, no rewrite because [save] is false or the handle is
    read-only), it then removes the working directory if it exists,
    and a failure of that removal is swallowed: the outcome of
    [close] does not depend on whether the removal fails, and when
    the removal goes through the working directory is gone. *)
Theorem close_always_removes_workdir f h save d :
  (forall leftover,
      snd (close scandir (with_rmtree leftover f) h save d)
      = snd (close scandir f h save d))
  /\ (workdir d <> None ->
      workdir (fst (close scandir f h save d)) = rmtree_leaves f)
  /\ (rmtree_leaves f = None ->
      workdir (fst (close scandir f h save d)) = None).
Proof.
  unfold close. split; [|split].
  - intros leftover. rewrite save_archive_with_rmtree.
    now destruct (save_archive scandir f h save d) as [d' r].
  - intros Hwd. pose proof (save_archive_workdir f h save d) as Hs.
    destruct (save_archive scandir f h save d) as [d' r]. cbn in *.
    destruct (workdir d') eqn:E; [reflexivity|]. congruence.
  - intros Hrm. destruct (save_archive scandir f h save d) as [d' r].
    cbn. destruct (workdir d') eqn:E; cbn; assumption.
Qed.

(** C6.  When building the temporary archive fails ([ZipFile] cannot
    be opened for writing, a [zf.write] raises, or closing the
    archive raises), [close] with [save] true deletes the temporary
    file, raises that very failure, and leaves the file at the
    target path as it was.  The deletion of the temporary file is
    taken to go through. *)
Theorem failed_build_leaves_original f h d wd e :
  mode h = ModeRW ->
  workdir d = Some wd ->
  negb (parent_exists d) && mkdir_fails f = false ->
  mkstemp_fails f = false ->
  snd (build scandir f wd) = Some e ->
  remove_fails f = false ->
  snd (close scandir f h true d) = Raise e
  /\ tmpzip (fst (close scandir f h true d)) = None
  /\ target (fst (close scandir f h true d)) = target d.
Proof.
  intros Hm Hw Hmk Hst Hb Hrm.
  unfold close, save_archive, rewrite_archive.
  rewrite Hm, Hw, Hmk, Hst.
  destruct (build scandir f wd) as [written failure]. cbn in Hb.
  subst failure. cbn. rewrite Hrm. cbn. rewrite ?Hw. cbn. auto.
Qed.

End Closing.

Section Rewriting.

Variable scandir : forall A : Type, list (pystr * A) -> list (pystr * A).
Hypothesis scandir_perm :
  forall (A : Type) (l : list (pystr * A)), Permutation (scandir A l) l.

Lemma in_scandir {A} (x : pystr * A) l : In x (scandir A l) <-> In x l.
Proof.
  split; apply Permutation_in;
    [apply scandir_perm | apply Permutation_sym, scandir_perm].
Qed.

(** What [os.walk] sees of a directory: every entry with the files
    found below it. *)
Lemma walk_files_dir rel es :
  walk_files scandir rel (Dir es)
  = (let scanned :=
       scandir _
         (map (fun e => (fst e,
                         (snd e,
                          walk_files scandir (rel ++ [fst e]) (snd e))))
              es) in
     omap (fun '(nm, (c, _)) =>
             match c with
             | File data => Some (rel ++ [nm], data)
             | Dir _ => None
             end) scanned
       ++ concat (map (fun '(_, (_, below)) => below) scanned)).
Proof.
  assert (E : forall l : list (pystr * node),
             (fix each (l : list (pystr * node)) :=
                match l with
                | [] => []
                | (nm, c) :: r =>
                    (nm, (c, walk_files scandir (rel ++ [nm]) c))
                      :: each r
                end) l
             = map (fun e => (fst e,
                              (snd e,
                               walk_files scandir (rel ++ [fst e])
                                 (snd e)))) l).
  { induction l as [|[nm c] l IH]; [reflexivity|].
    cbn [map fst snd]. f_equal. exact IH. }
  cbn [walk_files]. cbv zeta. rewrite E. reflexivity.
Qed.

(** Every path [close] writes is the path of a regular file. *)
Lemma walk_files_are_files n : forall rel ps data,
  In (ps, data) (walk_files scandir rel n) ->
  exists es qs, n = Dir es /\ ps = rel ++ qs
                /\ node_at es qs (File data).
Proof.
  induction n as [d|es IH] using node_rect_nested; intros rel ps data Hin.
  - destruct Hin.
  - rewrite walk_files_dir in Hin. cbv zeta in Hin.
    exists es. apply in_app_or in Hin as [Hin|Hin].
    + apply list_elem_of_In, list_elem_of_omap in Hin
        as ([nm [c below]] & Hx & Hf).
      apply list_elem_of_In, in_scandir, in_map_iff in Hx
        as ([nm' c'] & [= -> -> _] & Hes).
      destruct c as [d|sub]; [|discriminate].
      injection Hf as <- <-.
      exists [nm]. repeat split. apply at_here.
      now apply list_elem_of_In.
    + apply in_concat in Hin as (below' & Hb & Hin).
      apply in_map_iff in Hb as ([nm [c below]] & <- & Hx).
      apply in_scandir, in_map_iff in Hx
        as ([nm' c'] & [= -> -> <-] & Hes).
      cbn [fst snd] in Hin.
      rewrite List.Forall_forall in IH.
      destruct (IH _ Hes _ _ _ Hin) as (sub & qs & Hc & -> & Hat).
      cbn [snd] in Hc. subst c.
      exists (nm :: qs). rewrite <- app_assoc. repeat split.
      eapply at_below; [|exact Hat]. now apply list_elem_of_In.
Qed.

(** A save without faults. *)
Lemma close_saves wd h d :
  mode h = ModeRW ->
  workdir d = Some wd ->
  close scandir no_faults h true d
  = (mkDisk (Zip (archive_of scandir wd)) true None None, Ok tt).
Proof.
  intros Hm Hw. unfold close, save_archive, rewrite_archive, build.
  rewrite Hm, Hw. generalize (archive_of scandir wd). intros arch.
  cbn. destruct (negb (parent_exists d)); cbn; rewrite ?Hw; reflexivity.
Qed.

(** C10.  A [close] that saves writes the regular files below the
    working directory and nothing else: every entry of the new
    archive is a file of the tree, named by its relative path.
    Hence a directory with no file anywhere below it leaves no
    trace in the archive: no entry lies at or below its path. *)
Theorem close_writes_regular_files_only wd h d :
  mode h = ModeRW ->
  workdir d = Some wd ->
  target (fst (close scandir no_faults h true d))
  = Zip (archive_of scandir wd)
  /\ archive_of scandir wd
     = map (fun '(ps, data) => zf_write (pjoin ps) data)
           (written_files scandir wd)
  /\ (forall ps data,
        In (ps, data) (written_files scandir wd) ->
        node_at wd ps (File data))
  /\ (forall dparts sub,
        node_at wd dparts (Dir sub) ->
        (forall qs data, ~ node_at wd (dparts ++ qs) (File data)) ->
        forall ps data,
          In (ps, data) (written_files scandir wd) ->
          forall qs, ps <> dparts ++ qs).
Proof.
  intros Hm Hw.
  assert (Hfiles : forall ps data,
             In (ps, data) (written_files scandir wd) ->
             node_at wd ps (File data)).
  { intros ps data Hin. apply walk_files_are_files in Hin
      as (es & qs & [= <-] & -> & Hat). exact Hat. }
  split; [|split; [reflexivity|split; [exact Hfiles|]]].
  - now rewrite (close_saves wd).
  - intros dparts sub _ Hempty ps data Hin qs ->.
    exact (Hempty qs data (Hfiles _ _ Hin)).
Qed.

Lemma scandir_one {A} (x : pystr * A) : scandir A [x] = [x].
Proof.
  apply Permutation_length_1_inv, Permutation_sym, scandir_perm.
Qed.

Lemma scandir_two {A} (x y : pystr * A) :
  scandir A [x; y] = [x; y] \/ scandir A [x; y] = [y; x].
Proof.
  apply Permutation_length_2_inv, Permutation_sym, scandir_perm.
Qed.

(** The archive written for the extracted tree holds the two files,
    in the order the operating system lists them; the directory
    [B] has no entry of its own and comes back as the parent of
    [B/C]. *)
Lemma walk_files_single rel nm data :
  walk_files scandir rel (Dir [(nm, File data)]) = [(rel ++ [nm], data)].
Proof.
  rewrite walk_files_dir. cbn [map fst snd]. cbv zeta.
  rewrite scandir_one. reflexivity.
Qed.

Lemma rewritten_abc_archive a c :
  archive_of scandir (abc_tree a c)
  = [zf_write name_A a; zf_write name_B_C c].
Proof.
  unfold archive_of, written_files, abc_tree.
  rewrite walk_files_dir. cbn [map fst snd app]. cbv zeta.
  rewrite walk_files_single. cbn [walk_files app].
  destruct (scandir_two
              (name_A, (File a, @nil (list pystr * bytes)))
              (name_B, (Dir [(name_C, File c)],
                        [([name_B; name_C], c)]))) as [E|E];
    rewrite E; reflexivity.
Qed.

Lemma open_abc dbcs p t fa fb fc a bd c d :
  target d = Zip (abc_archive fa fb fc a bd c) ->
  open dbcs p t false ModeRW d
  = (set_workdir (Some (abc_tree a c)) d, Opened (mkHandle p t ModeRW)).
Proof.
  intros H. unfold open. rewrite H. unfold abc_archive.
  cbn [_extract_with_encoding]. unfold extract_entry. cbn [info payload].
  rewrite !CodecFacts.decode_ascii_name by reflexivity.
  reflexivity.
Qed.

(** C3.  An archive with the entries [A] (a file), [B/] (a
    directory) and [B/C] (a file) is opened, closed unchanged with
    [save] true in read-write mode, and opened again.  Both times the
    handle's working directory holds the same entries, the file [A],
    the directory [B] and the file [B/C], and the files hold the
    same bytes. *)
Theorem round_trip_same_entries dbcs p t t' fa fb fc a bd c :
  let d0 := mkDisk (Zip (abc_archive fa fb fc a bd c)) true None None in
  exists d1 d2 d3 wd1 wd2,
    open dbcs p t false ModeRW d0 = (d1, Opened (mkHandle p t ModeRW))
    /\ workdir d1 = Some wd1
    /\ close scandir no_faults (mkHandle p t ModeRW) true d1
       = (d2, Ok tt)
    /\ open dbcs p t' false ModeRW d2
       = (d3, Opened (mkHandle p t' ModeRW))
    /\ workdir d3 = Some wd2
    /\ Permutation (tree_entries wd2) (tree_entries wd1)
    /\ tree_entries wd1
       = [([name_A], Some a); ([name_B], None);
          ([name_B; name_C], Some c)].
Proof.
  cbv zeta.
  set (d0 := mkDisk (Zip (abc_archive fa fb fc a bd c)) true None None).
  exists (set_workdir (Some (abc_tree a c)) d0).
  exists (mkDisk (Zip [zf_write name_A a; zf_write name_B_C c]) true
            None None).
  exists (mkDisk (Zip [zf_write name_A a; zf_write name_B_C c]) true
            (Some (abc_tree a c)) None).
  exists (abc_tree a c), (abc_tree a c).
  split; [now apply (open_abc dbcs p t fa fb fc a bd c)|].
  split; [reflexivity|].
  split.
  { rewrite (close_saves (abc_tree a c)) by reflexivity.
    now rewrite rewritten_abc_archive. }
  repeat split; reflexivity.
Qed.

End Rewriting.

Lemma failed_build_leaves_original_witness :
  let f := mkFaults false false false (Some 0) false false false None in
  let h := mkHandle "x.zip" "/tmp/z_lib_1" ModeRW in
  let d := mkDisk (Zip [zf_write name_A [Byte.x01]]) true
             (Some (tree_with_empty_dir [Byte.x02])) None in
  snd (close in_order f h true d) = Raise (OSError "write")
  /\ tmpzip (fst (close in_order f h true d)) = None
  /\ target (fst (close in_order f h true d))
     = Zip [zf_write name_A [Byte.x01]].
Proof.
  cbv zeta.
  apply (failed_build_leaves_original in_order
           (mkFaults false false false (Some 0) false false false None)
           (mkHandle "x.zip" "/tmp/z_lib_1" ModeRW)
           (mkDisk (Zip [zf_write name_A [Byte.x01]]) true
              (Some (tree_with_empty_dir [Byte.x02])) None)
           (tree_with_empty_dir [Byte.x02]) (OSError "write"));
    reflexivity.
Defined.

Lemma close_always_removes_workdir_witness :
  let h := mkHandle "x.zip" "/tmp/z_lib_1" ModeR in
  let d := mkDisk Absent true (Some (tree_with_empty_dir [Byte.x02])) None in
  workdir (fst (close in_order no_faults h true d)) = None.
Proof.
  cbv zeta.
  apply (proj2 (proj2 (close_always_removes_workdir in_order
                         no_faults
                         (mkHandle "x.zip" "/tmp/z_lib_1" ModeR) true
                         (mkDisk Absent true
                            (Some (tree_with_empty_dir [Byte.x02])) None)))).
  reflexivity.
Defined.

Lemma in_order_perm (A : Type) (l : list (pystr * A)) :
  Permutation (in_order A l) l.
Proof. apply Permutation_refl. Qed.

Lemma reversed_perm (A : Type) (l : list (pystr * A)) :
  Permutation (reversed A l) l.
Proof. apply Permutation_sym, Permutation_rev. Qed.

Lemma close_writes_regular_files_only_witness :
  target (fst (close in_order no_faults
                 (mkHandle "x.zip" "/tmp/z_lib_1" ModeRW) true
                 (mkDisk Absent true
                    (Some (tree_with_empty_dir [Byte.x02])) None)))
  = Zip [zf_write name_A [Byte.x02]].
Proof.
  exact (proj1 (close_writes_regular_files_only in_order in_order_perm
                  (tree_with_empty_dir [Byte.x02])
                  (mkHandle "x.zip" "/tmp/z_lib_1" ModeRW)
                  (mkDisk Absent true
                     (Some (tree_with_empty_dir [Byte.x02])) None)
                  eq_refl eq_refl)).
Defined.

(** An empty directory does not survive a save: the archive written
    for a tree with the file [A] and the empty directory [E] has the
    one entry [A], and opening it again gives a tree without [E]. *)
Lemma empty_directory_is_dropped dbcs a :
  archive_of in_order (tree_with_empty_dir a) = [zf_write name_A a]
  /\ _extract_with_encoding dbcs [zf_write name_A a] []
     = ([(name_A, File a)], None).
Proof. split; reflexivity. Qed.

Lemma round_trip_same_entries_witness :
  exists d1 d2 d3 wd1 wd2,
    open dbcs_excerpt "x.zip" "/tmp/z_lib_1" false ModeRW
      (mkDisk (Zip (abc_archive 0%Z 0%Z 2048%Z [Byte.x61] [] [Byte.x62; Byte.x63]))
         true None None)
    = (d1, Opened (mkHandle "x.zip" "/tmp/z_lib_1" ModeRW))
    /\ workdir d1 = Some wd1
    /\ close reversed no_faults (mkHandle "x.zip" "/tmp/z_lib_1" ModeRW)
         true d1 = (d2, Ok tt)
    /\ open dbcs_excerpt "x.zip" "/tmp/z_lib_2" false ModeRW d2
       = (d3, Opened (mkHandle "x.zip" "/tmp/z_lib_2" ModeRW))
    /\ workdir d3 = Some wd2
    /\ Permutation (tree_entries wd2) (tree_entries wd1)
    /\ tree_entries wd1
       = [([name_A], Some [Byte.x61]); ([name_B], None);
          ([name_B; name_C], Some [Byte.x62; Byte.x63])].
Proof.
  exact (round_trip_same_entries reversed reversed_perm dbcs_excerpt
           "x.zip" "/tmp/z_lib_1" "/tmp/z_lib_2" 0%Z 0%Z 2048%Z
           [Byte.x61] [] [Byte.x62; Byte.x63]).
Defined.

End BackendFacts.

(** ** More on path resolution *)

Module PathResolverMore.
Import PyStr PathResolver PathResolverFacts.

Local Open Scope nat_scope.
Local Open Scope list_scope.

Lemma replace_char_idem a b s :
  a <> b -> replace_char a b (replace_char a b s) = replace_char a b s.
Proof.
  intros Hab. induction s as [|c s IH]; [reflexivity|].
  cbn [replace_char]. rewrite IH. f_equal.
  destruct (Ascii.eqb c a) eqn:E; [|now rewrite E].
  destruct (Ascii.eqb b a) eqn:E'; [|reflexivity].
  apply Ascii.eqb_eq in E'. congruence.
Qed.

Lemma replace_char_absent a b s :
  a <> b -> ~ In a (list_ascii_of_string (replace_char a b s)).
Proof.
  intros Hab. induction s as [|c s IH]; [intros []|].
  cbn [replace_char list_ascii_of_string]. intros [H|H]; [|auto].
  destruct (Ascii.eqb c a) eqn:E; [congruence|].
  apply Ascii.eqb_neq in E. congruence.
Qed.

Lemma replace_char_id a b s :
  ~ In a (list_ascii_of_string s) -> replace_char a b s = s.
Proof.
  induction s as [|c s IH]; [reflexivity|].
  cbn [replace_char list_ascii_of_string]. intros H.
  rewrite IH by (intros H'; apply H; now right). f_equal.
  destruct (Ascii.eqb c a) eqn:E; [|reflexivity].
  apply Ascii.eqb_eq in E. exfalso. apply H. now left.
Qed.

(** X1.  [normalize_path] leaves no backslash, changes nothing else, and
    applying it twice is applying it once. *)
Theorem normalize_path_normal p :
  ~ In "\"%char (list_ascii_of_string (normalize_path p))
  /\ String.length (normalize_path p) = String.length p
  /\ normalize_path (normalize_path p) = normalize_path p
  /\ (~ In "\"%char (list_ascii_of_string p) -> normalize_path p = p).
Proof.
  unfold normalize_path. repeat split.
  - apply replace_char_absent. discriminate.
  - induction p as [|c p IH]; [reflexivity|]. cbn. now rewrite IH.
  - apply replace_char_idem. discriminate.
  - apply replace_char_id.
Qed.

Lemma split_nonempty sep s : split sep s <> [].
Proof.
  destruct s as [|c s]; [discriminate|]. cbn [split].
  destruct (Ascii.eqb c sep); [discriminate|].
  destruct (split sep s); discriminate.
Qed.

Lemma join_cons sep p ps :
  ps <> [] -> join sep (p :: ps) = p +:+ sep +:+ join sep ps.
Proof. destruct ps; [congruence|reflexivity]. Qed.

(** Joining what was split gives the string back. *)
Lemma join_split s : join "/" (split "/" s) = s.
Proof.
  induction s as [|c s IH]; [reflexivity|].
  cbn [split]. destruct (Ascii.eqb c "/") eqn:E.
  - apply Ascii.eqb_eq in E. subst c.
    rewrite join_cons by apply split_nonempty. now rewrite IH.
  - pose proof (split_nonempty "/" s) as Hne.
    destruct (split "/" s) as [|q qs]; [congruence|].
    rewrite <- IH. destruct qs; reflexivity.
Qed.

Lemma path_div_empty a : path_div a "" = a.
Proof. reflexivity. Qed.

(** X2.  The path of a loaded archive itself resolves to the working
    directory of its handle, as the docstring of [resolve_to_real_path]
    says ("If path corresponds to a loaded ZIP root, returns the
    temp_dir"), whichever way its separators are written. *)
Theorem resolve_archive_root resolve p reg h :
  dict_get reg (normalize_path p) = Some h ->
  find_longest_match_handle resolve p reg = (Some h, "")
  /\ resolve_to_real_path resolve p reg = Ok (temp_dir h).
Proof.
  intros Hk.
  assert (Hf : find_longest_match_handle resolve p reg = (Some h, "")).
  { unfold find_longest_match_handle.
    pose proof (split_nonempty "/" (normalize_path p)) as Hne.
    set (parts := split "/" (normalize_path p)) in *.
    rewrite (scan_prefixes_longest _ parts (length parts) (length parts) h).
    - now rewrite drop_all.
    - destruct parts; [congruence|]. cbn. lia.
    - rewrite firstn_all. subst parts. now rewrite join_split.
    - intros j Hj. lia. }
  split; [exact Hf|].
  unfold resolve_to_real_path. rewrite Hf. now rewrite path_div_empty.
Qed.

Lemma resolve_archive_root_witness :
  resolve_to_real_path Sample.sample_resolve "\home\data\pack.zip"
    Sample.sample_registry = Ok "/tmp/z_lib_1".
Proof.
  apply (proj2 (resolve_archive_root Sample.sample_resolve
                  "\home\data\pack.zip" Sample.sample_registry
                  Sample.pack_handle eq_refl)).
Defined.

(** X3.  The way the separators are written does not change which handle
    matches nor the internal path; only an unmatched path is handed
    back as it was given. *)
Theorem find_longest_match_separators resolve p reg :
  fst (find_longest_match_handle resolve p reg)
  = fst (find_longest_match_handle resolve (normalize_path p) reg)
  /\ (fst (find_longest_match_handle resolve p reg) <> None ->
      find_longest_match_handle resolve p reg
      = find_longest_match_handle resolve (normalize_path p) reg)
  /\ (fst (find_longest_match_handle resolve p reg) = None ->
      snd (find_longest_match_handle resolve p reg) = p).
Proof.
  unfold find_longest_match_handle.
  assert (Hn : normalize_path (normalize_path p) = normalize_path p)
    by (apply replace_char_idem; discriminate).
  rewrite Hn.
  destruct (scan_prefixes (dict_get reg) _ _) as [[h i]|];
    [cbn; repeat split; congruence|].
  destruct (scan_prefixes (find_physical resolve reg) _ _) as [[h i]|];
    cbn; repeat split; congruence.
Qed.

(** X4.  A handle that is returned is a registered one: it is the value of
    the key that equals some prefix of the path, or the resolved
    physical path of that prefix, and the internal path is what follows
    the prefix.  An unmatched path has no such prefix. *)
Theorem find_longest_match_sound resolve p reg :
  let parts := split "/" (normalize_path p) in
  match find_longest_match_handle resolve p reg with
  | (Some h, internal) =>
      exists k, 1 <= k <= length parts
        /\ internal = join "/" (drop k parts)
        /\ (dict_get reg (join "/" (take k parts)) = Some h
            \/ exists abs,
                 resolve (join "/" (take k parts)) = Some abs
                 /\ dict_get reg (normalize_path abs) = Some h)
  | (None, internal) =>
      internal = p
      /\ forall k, 1 <= k <= length parts ->
           dict_get reg (join "/" (take k parts)) = None
           /\ find_physical resolve reg (join "/" (take k parts)) = None
  end.
Proof.
  cbv zeta. unfold find_longest_match_handle.
  set (parts := split "/" (normalize_path p)).
  destruct (scan_prefixes (dict_get reg) parts (length parts))
    as [[h i]|] eqn:E1.
  { apply scan_prefixes_sound in E1 as (k & Hk & Hf & -> & _).
    exists k. auto. }
  destruct (scan_prefixes (find_physical resolve reg) parts (length parts))
    as [[h i]|] eqn:E2.
  { apply scan_prefixes_sound in E2 as (k & Hk & Hf & -> & _).
    exists k. repeat split; try lia. right.
    unfold find_physical in Hf.
    destruct (resolve (join "/" (take k parts))) as [abs|]; [|discriminate].
    exists abs. auto. }
  split; [reflexivity|].
  assert (Hnone : forall find,
             scan_prefixes find parts (length parts) = None ->
             forall k, 1 <= k <= length parts ->
                       find (join "/" (take k parts)) = None).
  { intros find. generalize (length parts) as n.
    induction n as [|n IH]; intros Hs k Hk; [lia|].
    cbn [scan_prefixes] in Hs.
    destruct (find (join "/" (take (S n) parts))) as [h|] eqn:E;
      [discriminate|].
    destruct (decide (k = S n)) as [->|Hne]; [exact E|].
    apply IH; [exact Hs|lia]. }
  intros k Hk. split; [now apply (Hnone _ E1)|now apply (Hnone _ E2)].
Qed.

(** X5.  Second pass.  When no prefix is a registry key as a string, the
    longest prefix whose resolved physical path is a key gives the
    handle: a relative path reaches an archive registered under its
    absolute path. *)
Theorem find_longest_match_physical resolve p reg k abs h :
  let parts := split "/" (normalize_path p) in
  (forall j, 1 <= j <= length parts ->
             dict_get reg (join "/" (take j parts)) = None) ->
  1 <= k <= length parts ->
  resolve (join "/" (take k parts)) = Some abs ->
  dict_get reg (normalize_path abs) = Some h ->
  (forall j, k < j <= length parts ->
             find_physical resolve reg (join "/" (take j parts)) = None) ->
  find_longest_match_handle resolve p reg
  = (Some h, join "/" (drop k parts)).
Proof.
  cbv zeta. intros Hstr Hk Hres Hkey Hlong.
  unfold find_longest_match_handle.
  rewrite scan_prefixes_none by exact Hstr.
  rewrite (scan_prefixes_longest _ _ _ k h); auto.
  unfold find_physical. now rewrite Hres.
Qed.

Lemma find_longest_match_physical_witness :
  find_longest_match_handle Sample.sample_resolve "data/pack.zip/sub/g.txt"
    Sample.sample_registry
  = (Some Sample.pack_handle, "sub/g.txt").
Proof.
  apply (find_longest_match_physical Sample.sample_resolve
           "data/pack.zip/sub/g.txt" Sample.sample_registry 2
           "/home/data/pack.zip" Sample.pack_handle).
  - cbn. intros j Hj.
    assert (j = 1 \/ j = 2 \/ j = 3 \/ j = 4) as [->|[->|[->| ->]]] by lia;
      reflexivity.
  - cbn. lia.
  - reflexivity.
  - reflexivity.
  - cbn. intros j Hj. assert (j = 3 \/ j = 4) as [->| ->] by lia; reflexivity.
Defined.

Lemma split_zip_loop_none seen rest :
  split_zip_loop seen rest = None ->
  Forall (fun q => endswith (lower q) ".zip" = false) rest.
Proof.
  revert seen. induction rest as [|part rest IH]; intros seen H;
    [constructor|].
  cbn [split_zip_loop] in H.
  destruct (endswith (lower part) ".zip") eqn:E; [discriminate|].
  constructor; [exact E|]. eapply IH, H.
Qed.

Lemma append_assoc_str a b c : (a +:+ b) +:+ c = a +:+ (b +:+ c).
Proof.
  induction a as [|x a IH]; [reflexivity|].
  change (String x ((a +:+ b) +:+ c) = String x (a +:+ (b +:+ c))).
  now rewrite IH.
Qed.

Lemma join_app sep l1 l2 :
  l1 <> [] -> l2 <> [] ->
  join sep (l1 ++ l2) = join sep l1 +:+ sep +:+ join sep l2.
Proof.
  intros H1 H2. induction l1 as [|a l1 IH]; [congruence|].
  destruct l1 as [|b l1].
  - cbn [app]. now rewrite join_cons.
  - change ((a :: b :: l1) ++ l2) with (a :: ((b :: l1) ++ l2)).
    rewrite join_cons by discriminate.
    rewrite IH by discriminate.
    rewrite (join_cons sep a (b :: l1)) by discriminate.
    now rewrite !append_assoc_str.
Qed.

(** X6.  [split_zip_path] cuts the path after the first component that ends
    in [.zip], in any letter case: the archive path is everything up to
    and including it, the internal path everything after it, and the
    two give the normalised path back.  Without such a component the
    path comes back as it was given. *)
Theorem split_zip_path_first_zip p :
  let parts := split "/" (normalize_path p) in
  match split_zip_path p with
  | (Some z, internal) =>
      exists before part after,
        parts = before ++ part :: after
        /\ endswith (lower part) ".zip" = true
        /\ Forall (fun q => endswith (lower q) ".zip" = false) before
        /\ z = join "/" (before ++ [part])
        /\ internal = join "/" after
        /\ normalize_path p
           = match after with
             | [] => z
             | _ :: _ => z +:+ "/" +:+ internal
             end
  | (None, internal) =>
      internal = p
      /\ Forall (fun q => endswith (lower q) ".zip" = false) parts
  end.
Proof.
  cbv zeta. unfold split_zip_path.
  destruct (split_zip_loop [] (split "/" (normalize_path p)))
    as [[z i]|] eqn:E.
  - apply split_zip_loop_found in E
      as (before & part & after & Hparts & Hzip & Hbefore & -> & ->).
    exists before, part, after. repeat split; auto.
    rewrite <- (join_split (normalize_path p)), Hparts.
    destruct after as [|a after].
    + reflexivity.
    + change (before ++ part :: a :: after)
        with (before ++ [part] ++ (a :: after)).
      rewrite app_assoc. apply join_app; [|discriminate].
      destruct before; discriminate.
  - split; [reflexivity|]. eapply split_zip_loop_none, E.
Qed.

End PathResolverMore.

(** ** More on the walk *)

Module WalkerMore.
Import PyStr PathResolver PathResolverFacts Walker WalkerFacts Observations.

Local Open Scope nat_scope.
Local Open Scope list_scope.

Section More.

Variable fs : filesystem.
Variable loaded_zips : registry.
Variable topdown onerror followlinks : bool.
Variable consumer :
  string -> list string -> list string -> list string * list string.

Abbreviation walk_rec := (_walk_recursive fs loaded_zips topdown onerror
                            followlinks consumer).
Abbreviation pick := (select fs loaded_zips followlinks).

Lemma zip_key_of_some reg k h :
  dict_get reg k = Some h -> exists k', zip_key_of reg h = Some k'.
Proof.
  induction reg as [|[k0 h0] reg IH]; [discriminate|].
  cbn [dict_get zip_key_of]. destruct (String.eqb k0 k).
  - intros [= ->]. rewrite String.eqb_refl. eauto.
  - intros H. destruct (String.eqb (temp_dir h0) (temp_dir h)); eauto.
Qed.

Lemma prefix_append a b : String.prefix a (a +:+ b) = true.
Proof.
  induction a as [|x a IH]; [now destruct b|].
  change (String.prefix (String x a) (String x (a +:+ b)) = true).
  cbn [String.prefix]. destruct (ascii_dec x x); [exact IH|congruence].
Qed.

Lemma extends_refl P st : extends P st st.
Proof. exists []. split; [now rewrite app_nil_r|constructor]. Qed.

Lemma extends_trans P s1 s2 s3 :
  extends P s1 s2 -> extends P s2 s3 -> extends P s1 s3.
Proof.
  intros (n1 & E1 & F1) (n2 & E2 & F2). exists (n1 ++ n2).
  split; [now rewrite E2, E1, app_assoc|]. now apply List.Forall_app.
Qed.

Lemma extends_emit (P : event -> Prop) e st : P e -> extends P st (emit e st).
Proof. intros H. exists [e]. split; [reflexivity|]. now constructor. Qed.

Lemma extends_stop P h st : extends P st (stop h st).
Proof. exists []. split; [cbn; now rewrite app_nil_r|constructor]. Qed.

Lemma extends_store P l x st : extends P st (store l x st).
Proof. exists []. split; [cbn; now rewrite app_nil_r|constructor]. Qed.

Lemma extends_report (P : event -> Prop) msg st :
  (forall m, P (OnError m)) -> extends P st (report onerror msg st).
Proof.
  intros H. unfold report.
  destruct onerror; [now apply extends_emit|apply extends_refl].
Qed.

Lemma extends_alloc P x st l st' :
  alloc x st = (l, st') -> extends P st st'.
Proof.
  unfold alloc. intros [= <- <-].
  exists []. split; [cbn; now rewrite app_nil_r|constructor].
Qed.

Lemma extends_do_yield (P : event -> Prop) root dl fl st :
  (forall ds fs, P (Yield root ds fs)) ->
  extends P st (do_yield consumer root dl fl st).
Proof.
  intros H. unfold do_yield. destruct (consumer root _ _) as [ds' fl'].
  eapply extends_trans; [apply (extends_emit P), H|].
  eapply extends_trans; apply extends_store.
Qed.

Lemma extends_foldl {A} P (f : wstate -> A -> wstate) xs : forall st,
  (forall s x, extends P s (f s x)) -> extends P st (foldl f st xs).
Proof.
  induction xs as [|x xs IH]; intros st Hf; [apply extends_refl|].
  cbn [foldl]. eapply extends_trans; [apply Hf|]. now apply IH.
Qed.

Lemma extends_os_walk (P : event -> Prop) body fuel : forall top st,
  (forall m, P (OnError m)) ->
  (forall root dl fl s, extends P s (body root dl fl s)) ->
  extends P st (os_walk fs topdown onerror followlinks fuel body top st).
Proof.
  induction fuel as [|fuel IH]; intros top st Herr Hbody; cbn [os_walk].
  - destruct (negb (running st)); [apply extends_refl|apply extends_stop].
  - destruct (negb (running st)); [apply extends_refl|].
    destruct (fs_listdir fs top) as [names|]; [|now apply extends_report].
    destruct (alloc _ st) as [dirs s1] eqn:E1.
    destruct (alloc _ s1) as [nondirs s2] eqn:E2.
    eapply extends_trans; [eapply extends_alloc, E1|].
    eapply extends_trans; [eapply extends_alloc, E2|].
    destruct topdown.
    + eapply extends_trans; [apply Hbody|].
      apply extends_foldl. intros s x.
      destruct (_ || _); [now apply IH|apply extends_refl].
    + set (s3 := foldl _ s2 _).
      assert (E3 : extends P s2 s3).
      { apply extends_foldl. intros s x. now apply IH. }
      destruct (running s3); [|exact E3].
      eapply extends_trans; [exact E3|apply Hbody].
Qed.

Lemma extends_classify P real_top a b c st n :
  extends P st (classify_entry fs loaded_zips followlinks real_top a b c st n).
Proof.
  unfold classify_entry. destruct (negb (running st)); [apply extends_refl|].
  destruct (fs_resolve fs _); [|apply extends_stop].
  destruct (_ && _); [apply extends_store|].
  destruct (dict_mem _ _); apply extends_store.
Qed.

Lemma extends_local_directory self v real_top entries st :
  (forall c s, extends (fun _ => True) s (self c s)) ->
  extends (fun _ => True) st
    (local_directory fs loaded_zips topdown followlinks consumer self v
       real_top entries st).
Proof.
  intros Hself. unfold local_directory.
  destruct (alloc [] st) as [a s1] eqn:E1.
  destruct (alloc [] s1) as [b s2] eqn:E2.
  destruct (alloc [] s2) as [c s3] eqn:E3.
  eapply extends_trans; [eapply extends_alloc, E1|].
  eapply extends_trans; [eapply extends_alloc, E2|].
  eapply extends_trans; [eapply extends_alloc, E3|].
  set (s4 := foldl _ s3 entries).
  assert (E4 : extends (fun _ => True) s3 s4)
    by (apply extends_foldl; intros; apply extends_classify).
  destruct (negb (running s4)); [exact E4|].
  eapply extends_trans; [exact E4|].
  destruct (alloc _ s4) as [vd s5] eqn:E5.
  eapply extends_trans; [eapply extends_alloc, E5|].
  set (s6 := if topdown then _ else s5).
  assert (E6 : extends (fun _ => True) s5 s6).
  { subst s6. destruct topdown; [|apply extends_refl].
    now apply extends_do_yield. }
  eapply extends_trans; [exact E6|].
  set (s7 := foldl _ s6 (read a s6)).
  assert (E7 : extends (fun _ => True) s6 s7)
    by (apply extends_foldl; intros; apply Hself).
  eapply extends_trans; [exact E7|].
  set (s8 := foldl _ s7 (read c s7)).
  assert (E8 : extends (fun _ => True) s7 s8).
  { apply extends_foldl. intros s x.
    destruct (negb (running s)); [apply extends_refl|].
    destruct (fs_resolve fs _); [apply Hself|apply extends_stop]. }
  eapply extends_trans; [exact E8|].
  destruct topdown; [apply extends_refl|].
  destruct (running s8); [now apply extends_do_yield|apply extends_refl].
Qed.

(** The walk only ever adds to what it has emitted. *)
Lemma walk_extends fuel : forall v st,
  extends (fun _ => True) st (walk_rec fuel v st).
Proof.
  induction fuel as [|fuel IH]; intros v st; cbn [_walk_recursive].
  - destruct (negb (running st)); [apply extends_refl|apply extends_stop].
  - destruct (negb (running st)); [apply extends_refl|].
    eapply extends_trans; [now apply (extends_emit _ (Call v))|].
    destruct (find_longest_match_handle _ _ _) as [[h|] i].
    + apply extends_os_walk; [auto|]. intros root dl fl s.
      unfold archive_body. destruct (relative_to _ _); [|apply extends_refl].
      destruct (zip_key_of _ _); [|apply extends_stop].
      now apply extends_do_yield.
    + destruct (fs_resolve fs v); [|apply extends_stop].
      destruct (negb (fs_is_dir fs s)); [now apply extends_report|].
      destruct (fs_listdir fs s); [|now apply extends_report].
      now apply extends_local_directory.
Qed.

(** X7.  A path that is not a directory, or whose entries cannot be listed,
    stops its own branch only: no tuple is yielded for it, [onerror] is
    called once if it was given, no exception leaves the generator and
    the walk goes on. *)
Theorem walk_inaccessible_directory fuel v st real_top :
  running st = true ->
  fst (find_longest_match_handle (fs_resolve fs) v loaded_zips) = None ->
  fs_resolve fs v = Some real_top ->
  fs_is_dir fs real_top = false \/ fs_listdir fs real_top = None ->
  running (walk_rec (S fuel) v st) = true
  /\ yields (walk_rec (S fuel) v st) = yields st
  /\ heap (walk_rec (S fuel) v st) = heap st
  /\ exists msg,
       trace (walk_rec (S fuel) v st)
       = trace st ++ Call v :: (if onerror then [OnError msg] else []).
Proof.
  intros Hrun Hfind Hres Hbad.
  cbn [_walk_recursive]. rewrite Hrun. cbn [negb].
  destruct (find_longest_match_handle (fs_resolve fs) v loaded_zips)
    as [[h|] i]; [discriminate|].
  rewrite Hres.
  assert (Hrep : forall msg,
             let st' := report onerror msg (emit (Call v) st) in
             running st' = true /\ yields st' = yields st
             /\ heap st' = heap st
             /\ trace st'
                = trace st ++ Call v :: (if onerror then [OnError msg] else [])).
  { intros msg. unfold report, yields. destruct onerror; cbn.
    - rewrite <- app_assoc. cbn. rewrite !omap_app. cbn.
      rewrite !app_nil_r. auto.
    - rewrite omap_app. cbn. rewrite app_nil_r. auto. }
  destruct (fs_is_dir fs real_top) eqn:Hd; cbn [negb].
  - destruct Hbad as [Hbad|Hbad]; [discriminate|]. rewrite Hbad.
    destruct (Hrep real_top) as (H1 & H2 & H3 & H4). eauto.
  - destruct (Hrep ("Not a directory: " +:+ v)) as (H1 & H2 & H3 & H4).
    eauto.
Qed.

Lemma select_partition real_top entries :
  Permutation
    ((pick IsSubdir real_top entries ++ pick IsMount real_top entries)
       ++ pick IsFile real_top entries)
    entries.
Proof.
  unfold select. induction entries as [|n es IH]; [constructor|].
  cbn [List.filter].
  destruct (kind_of fs loaded_zips followlinks real_top n); cbn [kind_eqb].
  - cbn [app]. now constructor.
  - rewrite <- app_assoc. cbn [app].
    etransitivity; [apply Permutation_sym, Permutation_middle|].
    constructor. now rewrite app_assoc.
  - etransitivity; [apply Permutation_sym, Permutation_middle|].
    now constructor.
Qed.

(** X8.  The tuple a top-down walk yields for a real directory lists every
    entry once: the subdirectory list is the directories that may be
    walked followed by the loaded archives, each in listing order, and
    everything else is a file. *)
Theorem walk_tuple_partitions_listing fuel v st real_top entries :
  topdown = true ->
  running st = true ->
  fst (find_longest_match_handle (fs_resolve fs) v loaded_zips) = None ->
  fs_resolve fs v = Some real_top ->
  fs_is_dir fs real_top = true ->
  fs_listdir fs real_top = Some entries ->
  forallb (resolvable fs real_top) entries = true ->
  let walkable n :=
    fs_is_dir fs (os_join real_top n)
    && negb (fs_is_symlink fs (os_join real_top n) && negb followlinks) in
  let loaded n := is_registry_key fs loaded_zips real_top n in
  exists dirs files rest,
    trace (walk_rec (S fuel) v st)
    = trace st ++ Call v :: Yield v dirs files :: rest
    /\ dirs = List.filter walkable entries
              ++ List.filter (fun n => negb (walkable n) && loaded n) entries
    /\ files = List.filter (fun n => negb (walkable n) && negb (loaded n))
                 entries
    /\ Permutation (dirs ++ files) entries.
Proof.
  intros Htd Hrun Hfind Hres Hdir Hls Hall. cbv zeta.
  destruct (walk_real_directory fs loaded_zips topdown onerror followlinks
              consumer fuel v st real_top entries)
    as (st1 & T1 & U1 & H1); auto.
  rewrite Htd in T1.
  destruct (H1 _ eq_refl) as [Heq _]. rewrite (Heq Htd).
  set (children := map _ _ ++ map _ _).
  assert (Hext : forall cs s, exists rest,
             trace (foldl (fun s c => walk_rec fuel c s) s cs)
             = trace s ++ rest).
  { intros cs s.
    destruct (extends_foldl (fun _ => True)
                (fun s c => walk_rec fuel c s) cs s) as (r & Hr & _);
      [intros; apply walk_extends|eauto]. }
  destruct (Hext children st1) as (rest & ->).
  exists (pick IsSubdir real_top entries ++ pick IsMount real_top entries),
         (pick IsFile real_top entries), rest.
  split; [rewrite T1, <- app_assoc; reflexivity|].
  assert (Hf : forall k (g : string -> bool),
             (forall n, kind_eqb (kind_of fs loaded_zips followlinks
                                    real_top n) k = g n) ->
             pick k real_top entries = List.filter g entries).
  { intros k g Hg. unfold select. clear -Hg.
    induction entries as [|n es IH]; [reflexivity|].
    cbn [List.filter]. now rewrite Hg, IH. }
  split; [|split; [|apply select_partition]].
  - f_equal; apply Hf; intros n; unfold kind_of;
      destruct (fs_is_dir fs (os_join real_top n)
                && negb (fs_is_symlink fs (os_join real_top n)
                         && negb followlinks));
      cbn; try reflexivity;
      destruct (is_registry_key fs loaded_zips real_top n); reflexivity.
  - apply Hf; intros n; unfold kind_of;
      destruct (fs_is_dir fs (os_join real_top n)
                && negb (fs_is_symlink fs (os_join real_top n)
                         && negb followlinks));
      cbn; try reflexivity;
      destruct (is_registry_key fs loaded_zips real_top n); reflexivity.
Qed.

(** X9.  Bottom-up, the tuple of a real directory comes after everything
    the walk emits for its children, which are entered in the same
    order as top-down; the tuple holds the lists as they were sorted,
    whatever the consumer did in between. *)
Theorem walk_bottomup_yields_last fuel v st real_top entries :
  topdown = false ->
  running st = true ->
  fst (find_longest_match_handle (fs_resolve fs) v loaded_zips) = None ->
  fs_resolve fs v = Some real_top ->
  fs_is_dir fs real_top = true ->
  fs_listdir fs real_top = Some entries ->
  forallb (resolvable fs real_top) entries = true ->
  exists st1 below_children,
    trace st1 = trace st ++ [Call v]
    /\ trace (foldl (fun s c => walk_rec fuel c s) st1
                (map (fun d => v +:+ "/" +:+ d)
                     (pick IsSubdir real_top entries)
                   ++ map (mount_child fs real_top)
                        (pick IsMount real_top entries)))
       = trace st1 ++ below_children
    /\ (running
          (foldl (fun s c => walk_rec fuel c s) st1
             (map (fun d => v +:+ "/" +:+ d)
                  (pick IsSubdir real_top entries)
                ++ map (mount_child fs real_top)
                     (pick IsMount real_top entries))) = true ->
        trace (walk_rec (S fuel) v st)
        = trace st ++ Call v :: below_children
            ++ [Yield v (pick IsSubdir real_top entries
                           ++ pick IsMount real_top entries)
                        (pick IsFile real_top entries)]).
Proof.
  intros Htd Hrun Hfind Hres Hdir Hls Hall.
  destruct (walk_real_directory fs loaded_zips topdown onerror followlinks
              consumer fuel v st real_top entries)
    as (st1 & T1 & U1 & H1); auto.
  rewrite Htd in T1.
  destruct (H1 _ eq_refl) as [_ Hbu]. specialize (Hbu Htd).
  set (st2 := foldl _ st1 _) in *.
  destruct (extends_foldl (fun _ => True) (fun s c => walk_rec fuel c s)
              (map (fun d => v +:+ "/" +:+ d)
                   (pick IsSubdir real_top entries)
                 ++ map (mount_child fs real_top)
                      (pick IsMount real_top entries)) st1)
    as (new & Hnew & _); [intros; apply walk_extends|].
  fold st2 in Hnew.
  exists st1, new. split; [exact T1|]. split; [exact Hnew|].
  intros Hr. change (running st2 = true) in Hr.
  rewrite Hbu, Hr, Hnew, T1, <- !app_assoc. reflexivity.
Qed.

(** X10.  Inside a loaded archive the walk is the native walk of the working
    directory: every tuple it yields has the archive's registry key, or
    a path below that key, as its root, and no recursive call is made,
    so archives that lie inside the working directory are not entered
    as archives. *)
Theorem archive_branch_stays_in_archive fuel v st h internal :
  running st = true ->
  find_longest_match_handle (fs_resolve fs) v loaded_zips
  = (Some h, internal) ->
  exists key new,
    zip_key_of loaded_zips h = Some key
    /\ trace (walk_rec (S fuel) v st) = trace st ++ Call v :: new
    /\ List.Forall (archive_event key) new.
Proof.
  intros Hrun Hfind.
  assert (Hreg : exists k, dict_get loaded_zips k = Some h).
  { unfold find_longest_match_handle in Hfind.
    destruct (scan_prefixes (dict_get loaded_zips) _ _) as [[h1 i1]|] eqn:E1.
    - injection Hfind as -> ->.
      apply scan_prefixes_sound in E1 as (k & _ & Hk & _). eauto.
    - destruct (scan_prefixes (find_physical (fs_resolve fs) loaded_zips)
                  _ _) as [[h2 i2]|] eqn:E2; [|discriminate].
      injection Hfind as -> ->.
      apply scan_prefixes_sound in E2 as (k & _ & Hk & _).
      unfold find_physical in Hk.
      destruct (fs_resolve fs _) as [abs|]; [eauto|discriminate]. }
  destruct Hreg as (k & Hk).
  destruct (zip_key_of_some loaded_zips k h Hk) as (key & Hkey).
  exists key.
  cbn [_walk_recursive]. rewrite Hrun. cbn [negb]. rewrite Hfind.
  destruct (extends_os_walk (archive_event key)
              (archive_body loaded_zips consumer h) fuel
              (path_div (temp_dir h) internal) (emit (Call v) st))
    as (new & Hnew & Hall).
  - intros m. exact I.
  - intros root dl fl s. unfold archive_body.
    destruct (relative_to root (temp_dir h)) as [rel|];
      [|apply extends_refl].
    rewrite Hkey. apply extends_do_yield. intros ds fls. cbn.
    destruct (String.eqb rel "."); [now left|right].
    unfold startswith. rewrite <- PathResolverMore.append_assoc_str.
    apply prefix_append.
  - exists new. split; [exact Hkey|]. split; [|exact Hall].
    rewrite Hnew. cbn [emit trace]. now rewrite <- app_assoc.
Qed.

End More.

(** X11.  The key of a registered handle is always found, so the search in
    the archive-backed branch never runs off the end of the registry;
    with working directories that are all different, as [mkdtemp] makes
    them, it is the key the handle is registered under. *)
Theorem zip_key_of_registered reg k h :
  dict_get reg k = Some h ->
  exists k' h',
    zip_key_of reg h = Some k'
    /\ In (k', h') reg
    /\ temp_dir h' = temp_dir h
    /\ ((forall k1 h1 k2 h2,
           In (k1, h1) reg -> In (k2, h2) reg ->
           temp_dir h1 = temp_dir h2 -> k1 = k2) ->
        k' = k).
Proof.
  intros Hk.
  assert (Hin : In (k, h) reg).
  { induction reg as [|[k0 h0] reg IH]; [discriminate|].
    cbn [dict_get] in Hk. destruct (String.eqb k0 k) eqn:E.
    - apply String.eqb_eq in E. injection Hk as ->. subst. now left.
    - right. auto. }
  assert (Hz : exists k' h', zip_key_of reg h = Some k' /\ In (k', h') reg
                             /\ temp_dir h' = temp_dir h).
  { clear Hk. induction reg as [|[k0 h0] reg IH]; [destruct Hin|].
    cbn [zip_key_of]. destruct (String.eqb (temp_dir h0) (temp_dir h)) eqn:E.
    - apply String.eqb_eq in E. exists k0, h0. repeat split; auto. now left.
    - destruct Hin as [[= -> ->]|Hin]; [now rewrite String.eqb_refl in E|].
      destruct (IH Hin) as (k' & h' & H1 & H2 & H3).
      exists k', h'. repeat split; auto. now right. }
  destruct Hz as (k' & h' & H1 & H2 & H3). exists k', h'.
  repeat split; auto. intros Huniq. eapply Huniq; eauto.
Qed.

Lemma zip_key_of_registered_witness :
  exists k' h',
    zip_key_of Sample.sample_registry Sample.pack_handle = Some k'
    /\ In (k', h') Sample.sample_registry
    /\ temp_dir h' = temp_dir Sample.pack_handle
    /\ ((forall k1 h1 k2 h2,
           In (k1, h1) Sample.sample_registry ->
           In (k2, h2) Sample.sample_registry ->
           temp_dir h1 = temp_dir h2 -> k1 = k2) ->
        k' = "/home/data/pack.zip").
Proof.
  exact (zip_key_of_registered Sample.sample_registry "/home/data/pack.zip"
           Sample.pack_handle eq_refl).
Defined.

Import Sample.

Lemma walk_inaccessible_directory_witness :
  yields (_walk_recursive sample_fs sample_registry true true false passive
            3 "data/n.txt" init) = yields init
  /\ running (_walk_recursive sample_fs sample_registry true true false
                passive 3 "data/n.txt" init) = true.
Proof.
  destruct (walk_inaccessible_directory sample_fs sample_registry true true
              false passive 2 "data/n.txt" init "/home/data/n.txt"
              eq_refl eq_refl eq_refl (or_introl eq_refl))
    as (H1 & H2 & _).
  split; [exact H2|exact H1].
Defined.

Lemma walk_tuple_partitions_listing_witness :
  exists dirs files rest,
    trace (_walk_recursive sample_fs sample_registry true true false
             (prune "d") 10 "data" init)
    = trace init ++ Call "data" :: Yield "data" dirs files :: rest
    /\ dirs = ["d"; "pack.zip"] /\ files = ["link"; "n.txt"].
Proof.
  destruct (walk_tuple_partitions_listing sample_fs sample_registry true true
              false (prune "d") 9 "data" init "/home/data"
              ["d"; "link"; "pack.zip"; "n.txt"]
              eq_refl eq_refl eq_refl eq_refl eq_refl eq_refl eq_refl)
    as (dirs & files & rest & Ht & Hd & Hf & _).
  exists dirs, files, rest. split; [exact Ht|]. split; [exact Hd|exact Hf].
Defined.

Lemma walk_bottomup_yields_last_witness :
  exists st1 below_children,
    trace st1 = trace init ++ [Call "data"]
    /\ trace (foldl (fun s c =>
                       _walk_recursive sample_fs sample_registry false true
                         false passive 9 c s) st1
                (map (fun d => "data" +:+ "/" +:+ d)
                     (select sample_fs sample_registry false IsSubdir
                        "/home/data" ["d"; "link"; "pack.zip"; "n.txt"])
                   ++ map (mount_child sample_fs "/home/data")
                        (select sample_fs sample_registry false IsMount
                           "/home/data" ["d"; "link"; "pack.zip"; "n.txt"])))
       = trace st1 ++ below_children.
Proof.
  destruct (walk_bottomup_yields_last sample_fs sample_registry false true
              false passive 9 "data" init "/home/data"
              ["d"; "link"; "pack.zip"; "n.txt"]
              eq_refl eq_refl eq_refl eq_refl eq_refl eq_refl eq_refl)
    as (st1 & new & H1 & H2 & _).
  exists st1, new. split; [exact H1|exact H2].
Defined.

Lemma archive_branch_stays_in_archive_witness :
  exists key new,
    zip_key_of sample_registry pack_handle = Some key
    /\ trace (_walk_recursive sample_fs sample_registry true true false
                passive 10 "/home/data/pack.zip/sub" init)
       = trace init ++ Call "/home/data/pack.zip/sub" :: new
    /\ List.Forall (archive_event key) new.
Proof.
  exact (archive_branch_stays_in_archive sample_fs sample_registry true true
           false passive 9 "/home/data/pack.zip/sub" init pack_handle "sub"
           eq_refl eq_refl).
Defined.

End WalkerMore.

(** ** More on file name decoding *)

Module CodecMore.
Import Codec CodecFacts.

Local Open Scope Z_scope.
Local Open Scope list_scope.

Lemma index_of_spec u l : forall i n,
  index_of u l i = Some n ->
  i <= n < i + Z.of_nat (length l)
  /\ nth (Z.to_nat (n - i)) l 0 = u.
Proof.
  induction l as [|x l IH]; intros i n H; [discriminate|].
  cbn [index_of] in H. destruct (x =? u) eqn:E.
  - injection H as <-. apply Z.eqb_eq in E. subst x.
    rewrite Z.sub_diag. cbn [length]. split; [lia|reflexivity].
  - apply IH in H as [Hr Hn]. cbn [length]. split; [lia|].
    replace (Z.to_nat (n - i)) with (S (Z.to_nat (n - (i + 1)))) by lia.
    exact Hn.
Qed.

(** A character that code page 437 can encode is the character its
    byte decodes to. *)
Lemma cp437_decode_encode_char u b :
  cp437_encode_char u = Some b -> cp437_decode_byte b = u.
Proof.
  unfold cp437_encode_char, cp437_decode_byte, byte_val.
  destruct ((0 <=? u) && (u <? 128)) eqn:E.
  - apply andb_prop in E as [H0 H1].
    apply Z.leb_le in H0. apply Z.ltb_lt in H1.
    intros H. apply Byte.to_of_N in H. rewrite H, Z2N.id by lia.
    apply Z.ltb_lt in H1. now rewrite H1.
  - destruct (index_of u cp437_high 128) as [n|] eqn:Hi; [|discriminate].
    apply index_of_spec in Hi as [Hr Hn].
    change (Z.of_nat (length cp437_high)) with 128 in Hr.
    intros H. apply Byte.to_of_N in H. rewrite H, Z2N.id by lia.
    assert (Hge : (n <? 128) = false) by (apply Z.ltb_ge; lia).
    now rewrite Hge.
Qed.

Lemma cp437_decode_encode s : forall raw,
  cp437_encode s = Some raw -> cp437_decode raw = s.
Proof.
  induction s as [|u s IH]; intros raw H.
  - now injection H as <-.
  - cbn [cp437_encode] in H.
    destruct (cp437_encode_char u) as [b|] eqn:Eu; [|discriminate].
    destruct (cp437_encode s) as [r|] eqn:Es; [|discriminate].
    injection H as <-. cbn [cp437_decode map].
    rewrite (cp437_decode_encode_char _ _ Eu). f_equal. now apply IH.
Qed.

Lemma cp437_encode_none s :
  cp437_encode s = None <-> exists u, In u s /\ cp437_encode_char u = None.
Proof.
  induction s as [|u s IH].
  - split; [discriminate|]. now intros (u & [] & _).
  - cbn [cp437_encode]. destruct (cp437_encode_char u) as [b|] eqn:Eu.
    + destruct (cp437_encode s) as [r|] eqn:Es; cbn.
      * split; [discriminate|]. intros (x & [<-|Hx] & Hn); [congruence|].
        assert (Hnone : Some r = None) by (apply IH; eauto).
        discriminate.
      * split; [|reflexivity]. intros _.
        destruct (proj1 IH eq_refl) as (x & Hx & Hn).
        exists x. split; [now right|exact Hn].
    + split; [|reflexivity]. intros _. exists u. split; [now left|exact Eu].
Qed.

(** X12.  A name made of ASCII characters only comes out as it went in,
    with or without the UTF-8 flag: the code-page correction never
    touches plain names. *)
Theorem ascii_name_is_kept dbcs name flags :
  forallb (fun c => (0 <=? c) && (c <? 128)) name = true ->
  _decode_zip_filename dbcs (mkInfo name flags) = Ok name.
Proof. apply decode_ascii_name. Qed.

Lemma ascii_name_is_kept_witness :
  _decode_zip_filename dbcs_excerpt (mkInfo [66; 47; 67] 0) = Ok [66; 47; 67]
  /\ _decode_zip_filename dbcs_excerpt (mkInfo [66; 47; 67] 2048)
     = Ok [66; 47; 67].
Proof.
  split.
  - apply (ascii_name_is_kept dbcs_excerpt [66; 47; 67] 0 eq_refl).
  - apply (ascii_name_is_kept dbcs_excerpt [66; 47; 67] 2048 eq_refl).
Defined.

(** X13.  The one exception [_decode_zip_filename] can raise is the
    [UnicodeEncodeError] of [filename.encode("cp437")], which stands
    outside the [try]: it is raised exactly when the UTF-8 flag is clear
    and the name holds a character that code page 437 does not have. *)
Theorem decode_raises_exactly dbcs info :
  (forall e, _decode_zip_filename dbcs info = Raise e ->
             e = UnicodeEncodeError)
  /\ (_decode_zip_filename dbcs info = Raise UnicodeEncodeError
      <-> Z.testbit (flag_bits info) 11 = false
          /\ exists u, In u (filename info) /\ cp437_encode_char u = None).
Proof.
  unfold _decode_zip_filename. rewrite flag_utf8_bit, negb_involutive.
  destruct (Z.testbit (flag_bits info) 11).
  - split; [discriminate|]. split; [discriminate|]. now intros [? _].
  - destruct (cp437_encode (filename info)) as [raw|] eqn:E.
    + split; [destruct (cp932_decode dbcs raw); discriminate|].
      split; [destruct (cp932_decode dbcs raw); discriminate|].
      intros [_ Hex]. apply cp437_encode_none in Hex. congruence.
    + split; [now intros e [= <-]|].
      split; [|reflexivity]. intros _. split; [reflexivity|].
      now apply cp437_encode_none.
Qed.

(** X14.  With the flag clear, whatever is returned comes from the bytes the
    name stands for in code page 437: the name is their CP437 decoding,
    and the result is their CP932 decoding or, if there is none, the
    name itself. *)
Theorem decode_returns_from_raw_bytes dbcs info s :
  Z.testbit (flag_bits info) 11 = false ->
  _decode_zip_filename dbcs info = Ok s ->
  exists raw,
    cp437_decode raw = filename info
    /\ (cp932_decode dbcs raw = Some s
        \/ (cp932_decode dbcs raw = None /\ s = filename info)).
Proof.
  intros Hbit. unfold _decode_zip_filename.
  rewrite flag_utf8_bit, Hbit. cbn [negb].
  destruct (cp437_encode (filename info)) as [raw|] eqn:E; [|discriminate].
  intros H. exists raw. split; [now apply cp437_decode_encode|].
  destruct (cp932_decode dbcs raw) as [s'|]; injection H as <-; auto.
Qed.

Lemma decode_returns_from_raw_bytes_witness :
  exists raw,
    cp437_decode raw = [0xf4; 0xb7; 0xfb; 0x7b]
    /\ (cp932_decode dbcs_excerpt raw = Some [0x65e5; 0x672c]
        \/ (cp932_decode dbcs_excerpt raw = None
            /\ [0x65e5; 0x672c] = [0xf4; 0xb7; 0xfb; 0x7b])).
Proof.
  exact (decode_returns_from_raw_bytes dbcs_excerpt
           (mkInfo [0xf4; 0xb7; 0xfb; 0x7b] 0) [0x65e5; 0x672c]
           eq_refl eq_refl).
Defined.

End CodecMore.

(** ** More on opening and closing archives *)

Module BackendMore.
Import Codec Backend BackendFacts SampleArchive TreeSpec.

Local Open Scope nat_scope.
Local Open Scope list_scope.

Section Closing.

Variable scandir : forall A : Type, list (pystr * A) -> list (pystr * A).

(** X15.  Without [save], with a read-only handle, or when the working
    directory is already gone, [close] writes nothing: the archive, its
    directory and the temporary file are as before and no exception is
    raised, whatever goes wrong elsewhere. *)
Theorem close_without_saving f h save d :
  save = false \/ mode h = ModeR \/ workdir d = None ->
  snd (close scandir f h save d) = Ok tt
  /\ target (fst (close scandir f h save d)) = target d
  /\ tmpzip (fst (close scandir f h save d)) = tmpzip d
  /\ parent_exists (fst (close scandir f h save d)) = parent_exists d.
Proof.
  intros H. unfold close, save_archive.
  destruct d as [tg pe w tz]. cbn in *.
  destruct save, (mode h), w; cbn; try (repeat split; reflexivity);
    destruct H as [H|[H|H]]; discriminate.
Qed.


End Closing.

Lemma close_without_saving_witness :
  target (fst (close in_order
                 (mkFaults true true true (Some 0) true true true None)
                 (mkHandle "x.zip" "/tmp/z_lib_1" ModeR) true
                 (mkDisk (Zip [zf_write name_A [Byte.x01]]) true
                    (Some (tree_with_empty_dir [Byte.x02])) None)))
  = Zip [zf_write name_A [Byte.x01]].
Proof.
  apply (close_without_saving in_order
           (mkFaults true true true (Some 0) true true true None)
           (mkHandle "x.zip" "/tmp/z_lib_1" ModeR) true
           (mkDisk (Zip [zf_write name_A [Byte.x01]]) true
              (Some (tree_with_empty_dir [Byte.x02])) None)
           (or_intror (or_introl eq_refl))).
Defined.


(** *** Trees under [mkdir] and [open] *)

Lemma pystr_eqb_eq a b : pystr_eqb a b = true <-> a = b.
Proof.
  revert b. induction a as [|x a IH]; intros [|y b]; cbn;
    try (split; [discriminate|congruence]); [tauto|].
  rewrite andb_true_iff, IH, Z.eqb_eq. split; [intros [-> ->]|intros [= -> ->]]; auto.
Qed.

Lemma pystr_eqb_refl a : pystr_eqb a a = true.
Proof. now apply pystr_eqb_eq. Qed.

Lemma pystr_eqb_neq a b : a <> b -> pystr_eqb a b = false.
Proof.
  intros H. destruct (pystr_eqb a b) eqn:E; [|reflexivity].
  apply pystr_eqb_eq in E. contradiction.
Qed.

Lemma path_eqb_eq a b : path_eqb a b = true <-> a = b.
Proof.
  revert b. induction a as [|x a IH]; intros [|y b]; cbn;
    try (split; [discriminate|congruence]); [tauto|].
  rewrite andb_true_iff, IH, pystr_eqb_eq.
  split; [intros [-> ->]|intros [= -> ->]]; auto.
Qed.

Lemma lookup_bind_same p n t : lookup_name p (bind_name p n t) = Some n.
Proof.
  induction t as [|[k m] t IH]; cbn.
  - now rewrite pystr_eqb_refl.
  - destruct (pystr_eqb k p) eqn:E; cbn; rewrite E; [reflexivity|exact IH].
Qed.

Lemma lookup_bind_other p q n t :
  q <> p -> lookup_name q (bind_name p n t) = lookup_name q t.
Proof.
  intros Hne. induction t as [|[k m] t IH]; cbn.
  - rewrite pystr_eqb_neq; [reflexivity|congruence].
  - destruct (pystr_eqb k p) eqn:E; cbn.
    + apply pystr_eqb_eq in E. subst k.
      rewrite pystr_eqb_neq; [reflexivity|congruence].
    + destruct (pystr_eqb k q); [reflexivity|exact IH].
Qed.

Lemma find_node_bind_same p n t rest :
  find_node (bind_name p n t) (p :: rest)
  = match rest with
    | [] => Some n
    | _ :: _ => match n with
                | Dir sub => find_node sub rest
                | File _ => None
                end
    end.
Proof. cbn [find_node]. now rewrite lookup_bind_same. Qed.

Lemma find_node_bind_other p q n t rest :
  q <> p -> find_node (bind_name p n t) (q :: rest) = find_node t (q :: rest).
Proof. intros H. cbn [find_node]. now rewrite lookup_bind_other. Qed.

Lemma find_node_nil_tree ps : find_node [] ps = None.
Proof. now destruct ps. Qed.

Lemma file_at_below p t sub rest :
  lookup_name p t = Some (Dir sub) -> rest <> [] ->
  file_at t (p :: rest) = file_at sub rest.
Proof.
  intros Hl Hr. unfold file_at. cbn [find_node]. rewrite Hl.
  destruct rest; [congruence|reflexivity].
Qed.

Lemma dir_at_below p t sub rest :
  lookup_name p t = Some (Dir sub) -> rest <> [] ->
  dir_at t (p :: rest) = dir_at sub rest.
Proof.
  intros Hl Hr. unfold dir_at. cbn [find_node]. rewrite Hl.
  destruct rest; [congruence|reflexivity].
Qed.

(** [mkdir(parents=True, exist_ok=True)] goes through unless a file is
    in the way; it leaves all files alone and adds the directories on
    its path. *)
Lemma mkdirs_spec ps : forall t,
  (forall q r, q <> [] -> ps = q ++ r -> file_at t q = None) ->
  exists t',
    mkdirs ps t = Ok t'
    /\ (forall qs, file_at t' qs = file_at t qs)
    /\ (forall qs, dir_at t' qs = true
                   <-> dir_at t qs = true
                       \/ (qs <> [] /\ exists r, ps = qs ++ r)).
Proof.
  induction ps as [|p ps IH]; intros t Hpre.
  - exists t. split; [reflexivity|]. split; [reflexivity|].
    intros qs. split; [auto|]. intros [H|[Hne [r Hr]]]; [exact H|].
    destruct qs; [congruence|discriminate].
  - cbn [mkdirs].
    assert (Hcase :
      exists sub0,
        (lookup_name p t = Some (Dir sub0)
         \/ (lookup_name p t = None /\ sub0 = []))
        /\ (forall q r, q <> [] -> ps = q ++ r -> file_at sub0 q = None)).
    { destruct (lookup_name p t) as [[d|sub0]|] eqn:El.
      - exfalso. specialize (Hpre [p] ps). unfold file_at in Hpre.
        cbn [find_node] in Hpre. rewrite El in Hpre.
        assert (Some d = None) by (apply Hpre; [discriminate|reflexivity]).
        discriminate.
      - exists sub0. split; [now left|]. intros q r Hq Hr.
        rewrite <- (file_at_below p t sub0 q El Hq).
        apply (Hpre (p :: q) r); [discriminate|]. cbn. now rewrite Hr.
      - exists []. split; [now right|]. intros q r _ _.
        unfold file_at. now rewrite find_node_nil_tree. }
    destruct Hcase as (sub0 & Hl & Hpre0).
    destruct (IH sub0 Hpre0) as (sub' & Hmk & Hf & Hd).
    assert (Hmk' : mkdirs (p :: ps) t = Ok (bind_name p (Dir sub') t)).
    { cbn [mkdirs]. destruct Hl as [Hl|[Hl ->]]; rewrite Hl, Hmk; reflexivity. }
    cbn [mkdirs] in Hmk'. rewrite Hmk'.
    exists (bind_name p (Dir sub') t). split; [reflexivity|].
    assert (Hsub0 : forall rest, rest <> [] ->
               find_node t (p :: rest) = find_node sub0 rest).
    { intros rest Hr. cbn [find_node].
      destruct Hl as [Hl|[Hl ->]]; rewrite Hl.
      - destruct rest; [congruence|reflexivity].
      - now rewrite find_node_nil_tree. }
    assert (Hnofile : file_at t [p] = None).
    { unfold file_at. cbn [find_node].
      destruct Hl as [Hl|[Hl _]]; now rewrite Hl. }
    split.
    + intros [|q rest]; [reflexivity|].
      destruct (decide (q = p)) as [->|Hne].
      * destruct rest as [|r0 rest].
        -- rewrite Hnofile. unfold file_at. now rewrite find_node_bind_same.
        -- specialize (Hf (r0 :: rest)). unfold file_at in *.
           rewrite find_node_bind_same, Hsub0 by discriminate. exact Hf.
      * unfold file_at. now rewrite find_node_bind_other.
    + intros [|q rest].
      { split; [discriminate|]. intros [H|[H _]]; [discriminate|congruence]. }
      destruct (decide (q = p)) as [->|Hne].
      * destruct rest as [|r0 rest].
        -- unfold dir_at at 1. rewrite find_node_bind_same.
           split; [|reflexivity]. intros _. right.
           split; [discriminate|]. now exists ps.
        -- specialize (Hd (r0 :: rest)). unfold dir_at in *.
           rewrite find_node_bind_same, Hsub0 by discriminate.
           rewrite Hd. split.
           ++ intros [H|[_ [r Hr]]]; [now left|right].
              split; [discriminate|]. exists r. cbn. now rewrite Hr.
           ++ intros [H|[_ [r Hr]]]; [now left|right].
              split; [discriminate|]. exists r. now injection Hr.
      * unfold dir_at. rewrite find_node_bind_other by assumption.
        split; [auto|]. intros [H|[_ [r Hr]]]; [exact H|].
        injection Hr as Hq _. congruence.
Qed.

(** Writing a file goes through when its parent directories are there
    and the path is not a directory; it sets that one file and leaves
    everything else alone. *)
Lemma write_file_spec data ps : forall t,
  ps <> [] ->
  (forall q r, q <> [] -> r <> [] -> ps = q ++ r -> dir_at t q = true) ->
  dir_at t ps = false ->
  exists t',
    write_file ps data t = Ok t'
    /\ (forall qs, file_at t' qs
                   = if path_eqb ps qs then Some data else file_at t qs)
    /\ (forall qs, dir_at t' qs = dir_at t qs).
Proof.
  induction ps as [|p ps IH]; intros t Hne Hpar Hnd; [congruence|].
  destruct ps as [|p2 ps].
  - cbn [write_file].
    assert (Hl : forall sub, lookup_name p t <> Some (Dir sub)).
    { intros sub E. unfold dir_at in Hnd. cbn [find_node] in Hnd.
      rewrite E in Hnd. discriminate. }
    assert (Hw : write_file [p] data t = Ok (bind_name p (File data) t)).
    { cbn [write_file]. destruct (lookup_name p t) as [[d|sub]|];
        [reflexivity|now destruct (Hl sub)|reflexivity]. }
    cbn [write_file] in Hw. rewrite Hw.
    exists (bind_name p (File data) t). split; [reflexivity|].
    assert (Hold : forall rest, rest <> [] -> find_node t (p :: rest) = None).
    { intros rest Hr. cbn [find_node].
      destruct (lookup_name p t) as [[d|sub]|];
        [destruct rest; [congruence|reflexivity]
        |now destruct (Hl sub)|reflexivity]. }
    split.
    + intros [|q rest]; [reflexivity|].
      destruct (decide (q = p)) as [->|Hq].
      * cbn [path_eqb]. rewrite pystr_eqb_refl. cbn [andb].
        unfold file_at. rewrite find_node_bind_same.
        destruct rest; [reflexivity|]. cbn [path_eqb].
        now rewrite Hold.
      * cbn [path_eqb]. rewrite pystr_eqb_neq by congruence. cbn [andb].
        unfold file_at. now rewrite find_node_bind_other.
    + intros [|q rest]; [reflexivity|].
      destruct (decide (q = p)) as [->|Hq].
      * unfold dir_at. rewrite find_node_bind_same.
        destruct rest as [|r0 rest].
        -- change (false = dir_at t [p]). now rewrite Hnd.
        -- now rewrite Hold.
      * unfold dir_at. now rewrite find_node_bind_other.
  - assert (Hd1 : dir_at t [p] = true)
      by (apply (Hpar [p] (p2 :: ps)); [discriminate|discriminate|reflexivity]).
    unfold dir_at in Hd1. cbn [find_node] in Hd1.
    destruct (lookup_name p t) as [[d|sub]|] eqn:El; try discriminate.
    clear Hd1.
    destruct (IH sub) as (sub' & Hw & Hf & Hd).
    + discriminate.
    + intros q r Hq Hr Heq.
      rewrite <- (dir_at_below p t sub q El Hq).
      apply (Hpar (p :: q) r); [discriminate|exact Hr|]. cbn. now rewrite Heq.
    + rewrite <- (dir_at_below p t sub (p2 :: ps) El); [exact Hnd|discriminate].
    + assert (Hw' : write_file (p :: p2 :: ps) data t
                    = Ok (bind_name p (Dir sub') t)).
      { change (write_file (p :: p2 :: ps) data t)
          with (match lookup_name p t with
                | Some (Dir sub) =>
                    match write_file (p2 :: ps) data sub with
                    | Ok sub' => Ok (bind_name p (Dir sub') t)
                    | Raise e => Raise e
                    end
                | Some (File _) => Raise (OSError "NotADirectoryError")
                | None => Raise (OSError "FileNotFoundError")
                end).
        now rewrite El, Hw. }
      rewrite Hw'. exists (bind_name p (Dir sub') t).
      split; [reflexivity|]. split.
      * intros [|q rest]; [reflexivity|].
        destruct (decide (q = p)) as [->|Hq].
        -- cbn [path_eqb]. rewrite pystr_eqb_refl. cbn [andb].
           destruct rest as [|r0 rest].
           ++ cbn [path_eqb]. unfold file_at.
              rewrite find_node_bind_same. cbn [find_node]. now rewrite El.
           ++ transitivity (file_at sub' (r0 :: rest)).
              { unfold file_at. now rewrite find_node_bind_same. }
              rewrite Hf.
              rewrite (file_at_below p t sub (r0 :: rest) El) by discriminate.
              reflexivity.
        -- cbn [path_eqb]. rewrite pystr_eqb_neq by congruence. cbn [andb].
           unfold file_at. now rewrite find_node_bind_other.
      * intros [|q rest]; [reflexivity|].
        destruct (decide (q = p)) as [->|Hq].
        -- destruct rest as [|r0 rest].
           ++ unfold dir_at. rewrite find_node_bind_same.
              cbn [find_node]. now rewrite El.
           ++ rewrite (dir_at_below p t sub (r0 :: rest) El) by discriminate.
              rewrite <- Hd. unfold dir_at.
              now rewrite find_node_bind_same.
        -- unfold dir_at. now rewrite find_node_bind_other.
Qed.

(** *** Plain paths as entry names *)

Lemma plain_parts nm :
  plain nm = true ->
  nm <> [] /\ no_slash nm = true /\ nm <> dot /\ nm <> dotdot.
Proof.
  unfold plain, no_slash. rewrite !andb_true_iff, !negb_true_iff.
  intros [[[H1 H2] H3] H4]. repeat split.
  - intros ->. discriminate.
  - now rewrite H2.
  - intros ->. discriminate.
  - intros ->. discriminate.
Qed.

Lemma psplit_no_slash p : no_slash p = true -> psplit p = [p].
Proof.
  unfold no_slash. induction p as [|c p IH]; [reflexivity|].
  cbn [existsb psplit]. rewrite negb_orb, andb_true_iff, negb_true_iff.
  intros [Hc Hp]. rewrite Hc, (IH Hp). reflexivity.
Qed.

Lemma psplit_app p rest :
  no_slash p = true -> psplit (p ++ slash :: rest) = p :: psplit rest.
Proof.
  unfold no_slash. induction p as [|c p IH].
  - intros _. cbn. reflexivity.
  - cbn [existsb app psplit].
    rewrite negb_orb, andb_true_iff, negb_true_iff.
    intros [Hc Hp]. rewrite Hc, (IH Hp). reflexivity.
Qed.

Lemma pjoin_cons p ps :
  ps <> [] -> pjoin (p :: ps) = p ++ slash :: pjoin ps.
Proof. destruct ps; [congruence|reflexivity]. Qed.

Lemma psplit_pjoin ps :
  ps <> [] -> forallb no_slash ps = true -> psplit (pjoin ps) = ps.
Proof.
  induction ps as [|p ps IH]; [congruence|]. intros _ H.
  cbn [forallb] in H. apply andb_prop in H as [Hp Hps].
  destruct ps as [|p2 ps].
  - now apply psplit_no_slash.
  - rewrite pjoin_cons by discriminate.
    rewrite psplit_app by assumption. f_equal. now apply IH.
Qed.

Lemma plain_all_parts l :
  forallb plain l = true ->
  forallb no_slash l = true
  /\ Forall (fun p => p <> [] /\ p <> dot /\ p <> dotdot) l.
Proof.
  induction l as [|p l IH]; intros H; [split; [reflexivity|constructor]|].
  cbn [forallb] in *. apply andb_prop in H as [Hp Hl].
  destruct (plain_parts p Hp) as (H1 & Hs & H3 & H4).
  destruct (IH Hl) as [IH1 IH2]. rewrite Hs, IH1. split; [reflexivity|].
  constructor; auto.
Qed.

Lemma plain_path_parts ps :
  plain_path ps = true ->
  ps <> [] /\ forallb no_slash ps = true
  /\ Forall (fun p => p <> [] /\ p <> dot /\ p <> dotdot) ps.
Proof.
  unfold plain_path. destruct ps as [|p0 ps0]; [discriminate|].
  intros H. split; [discriminate|]. now apply plain_all_parts.
Qed.

Lemma path_parts_pjoin ps :
  plain_path ps = true -> path_parts (pjoin ps) = ps.
Proof.
  intros H. destruct (plain_path_parts ps H) as (Hne & Hs & Hall).
  unfold path_parts. rewrite psplit_pjoin by assumption.
  clear -Hall. induction Hall as [|p l (H1 & H2 & _) _ IH]; [reflexivity|].
  cbn [List.filter]. rewrite IH.
  assert (E1 : is_nil p = false) by (destruct p; [congruence|reflexivity]).
  rewrite E1, (pystr_eqb_neq p dot H2). reflexivity.
Qed.

Lemma pjoin_head (p : pystr) (ps : list pystr) :
  p <> [] -> exists c tl, p = c :: tl /\ exists r, pjoin (p :: ps) = c :: r.
Proof.
  intros Hp. destruct p as [|c tl]; [congruence|].
  exists c, tl. split; [reflexivity|].
  destruct ps; cbn; eauto.
Qed.

Lemma leaves_dest_pjoin ps :
  plain_path ps = true -> leaves_dest (pjoin ps) = false.
Proof.
  intros H. destruct (plain_path_parts ps H) as (Hne & Hs & Hall).
  unfold leaves_dest. rewrite psplit_pjoin by assumption.
  apply orb_false_iff. split.
  - destruct ps as [|p ps]; [congruence|].
    inversion Hall as [|? ? (Hp & _) _]; subst.
    destruct (pjoin_head p ps Hp) as (c & tl & Ep & r & Er).
    transitivity (is_absolute (c :: r)); [f_equal; exact Er|]. subst p.
    cbn [is_absolute]. cbn [forallb] in Hs. apply andb_prop in Hs as [Hs _].
    unfold no_slash in Hs. cbn [existsb] in Hs.
    rewrite negb_orb in Hs. apply andb_prop in Hs as [Hc _].
    now apply negb_true_iff in Hc.
  - clear -Hall. induction Hall as [|p l (_ & _ & H3) _ IH]; [reflexivity|].
    cbn [existsb]. rewrite IH, pystr_eqb_neq by congruence. reflexivity.
Qed.

Lemma ends_with_slash_app a b :
  b <> [] -> ends_with_slash (a ++ b) = ends_with_slash b.
Proof.
  intros Hb. induction a as [|c a IH]; [reflexivity|].
  cbn [app]. destruct (a ++ b) eqn:E.
  - destruct a; [|discriminate]. cbn in E. congruence.
  - rewrite <- IH. reflexivity.
Qed.

Lemma ends_with_slash_no_slash p :
  no_slash p = true -> ends_with_slash p = false.
Proof.
  unfold no_slash. induction p as [|c p IH]; [reflexivity|].
  cbn [existsb]. rewrite negb_orb, andb_true_iff, negb_true_iff.
  intros [Hc Hp]. destruct p as [|c2 p]; [exact Hc|].
  change (ends_with_slash (c :: c2 :: p)) with (ends_with_slash (c2 :: p)).
  now apply IH.
Qed.

Lemma ends_with_slash_pjoin ps :
  plain_path ps = true -> ends_with_slash (pjoin ps) = false.
Proof.
  intros H. destruct (plain_path_parts ps H) as (Hne & Hs & Hall).
  clear H. induction ps as [|p ps IH]; [congruence|].
  cbn [forallb] in Hs. apply andb_prop in Hs as [Hp Hps].
  inversion Hall as [|? ? (Hpne & _) Hall']; subst.
  destruct ps as [|p2 ps].
  - now apply ends_with_slash_no_slash.
  - rewrite pjoin_cons by discriminate.
    rewrite ends_with_slash_app by discriminate.
    assert (Hj : pjoin (p2 :: ps) <> []).
    { inversion Hall' as [|? ? (Hp2 & _) _]; subst.
      destruct (pjoin_head p2 ps Hp2) as (c & tl & _ & r & Er).
      intros E0. assert (E1 : c :: r = []) by (rewrite <- Er; exact E0).
      discriminate. }
    destruct (pjoin (p2 :: ps)) as [|c r] eqn:E; [congruence|].
    change (ends_with_slash (slash :: c :: r)) with (ends_with_slash (c :: r)).
    apply IH; [discriminate|assumption|assumption].
Qed.

(** What [zf.write] stored reads back under the same name. *)
Lemma decode_written dbcs name data :
  _decode_zip_filename dbcs (info (zf_write name data)) = Ok name.
Proof.
  unfold zf_write. cbn [info]. destruct (is_ascii name) eqn:E.
  - now apply CodecFacts.decode_ascii_name.
  - reflexivity.
Qed.

Lemma is_proper_prefix_spec q p :
  is_proper_prefix q p = true <-> exists r, r <> [] /\ p = q ++ r.
Proof.
  revert p. induction q as [|x q IH]; intros [|y p]; cbn [is_proper_prefix].
  - split; [discriminate|]. intros (r & Hr & E). cbn in E. congruence.
  - split; [|reflexivity]. intros _. exists (y :: p). split; [discriminate|reflexivity].
  - split; [discriminate|]. intros (r & _ & E). discriminate.
  - rewrite andb_true_iff, pystr_eqb_eq, IH. split.
    + intros [-> (r & Hr & ->)]. exists r. split; [exact Hr|reflexivity].
    + intros (r & Hr & E). injection E as -> ->. split; [reflexivity|eauto].
Qed.

Lemma proper_prefix_removelast (q ps : list pystr) :
  ps <> [] ->
  (exists r, removelast ps = q ++ r) <-> (exists r, r <> [] /\ ps = q ++ r).
Proof.
  intros Hne. split.
  - intros (r & Hr). exists (r ++ [List.last ps []]). split.
    + destruct r; discriminate.
    + rewrite app_assoc, <- Hr. now apply app_removelast_last.
  - intros (r & Hr & ->). exists (removelast r). now apply removelast_app.
Qed.

(** One file entry with a plain path: it is extracted without error when
    no file lies above it and no directory at it; it creates the
    directories above the file and the file, and nothing else. *)
Lemma extract_file_entry dbcs t ps data :
  plain_path ps = true ->
  (forall q, q <> [] -> is_proper_prefix q ps = true -> file_at t q = None) ->
  dir_at t ps = false ->
  exists t',
    extract_entry dbcs t (zf_write (pjoin ps) data) = (t', None)
    /\ (forall qs, file_at t' qs
                   = if path_eqb ps qs then Some data else file_at t qs)
    /\ (forall qs, dir_at t' qs = true
                   <-> dir_at t qs = true
                       \/ (qs <> [] /\ is_proper_prefix qs ps = true)).
Proof.
  intros Hplain Habove Hnd.
  destruct (plain_path_parts ps Hplain) as (Hne & _ & _).
  unfold extract_entry.
  rewrite decode_written, leaves_dest_pjoin, ends_with_slash_pjoin,
    path_parts_pjoin by assumption.
  cbn [payload zf_write].
  destruct (mkdirs_spec (removelast ps) t) as (t1 & Hmk & Hf1 & Hd1).
  { intros q r Hq Hr. apply Habove; [exact Hq|].
    apply is_proper_prefix_spec, proper_prefix_removelast; eauto. }
  rewrite Hmk.
  destruct (write_file_spec data ps t1) as (t2 & Hw & Hf2 & Hd2).
  - exact Hne.
  - intros q r Hq Hr Heq. apply Hd1. right. split; [exact Hq|].
    apply proper_prefix_removelast; eauto.
  - destruct (dir_at t1 ps) eqn:E; [|reflexivity].
    apply Hd1 in E as [E|[_ E]]; [congruence|].
    apply proper_prefix_removelast in E as (r & Hr & E); [|exact Hne].
    rewrite <- (app_nil_r ps) in E at 1. apply app_inv_head in E. congruence.
  - rewrite Hw. exists t2. split; [reflexivity|]. split.
    + intros qs. rewrite Hf2, Hf1. reflexivity.
    + intros qs. rewrite Hd2, Hd1. split.
      * intros [H|[Hq H]]; [now left|right]. split; [exact Hq|].
        apply is_proper_prefix_spec, proper_prefix_removelast; assumption.
      * intros [H|[Hq H]]; [now left|right]. split; [exact Hq|].
        apply proper_prefix_removelast; [exact Hne|].
        now apply is_proper_prefix_spec.
Qed.

Lemma last_payload_snoc files f qs :
  last_payload (files ++ [f]) qs
  = if path_eqb (fst f) qs then Some (snd f) else last_payload files qs.
Proof. unfold last_payload. now rewrite fold_left_app. Qed.

Lemma last_payload_some files qs d :
  last_payload files qs = Some d ->
  exists f, In f files /\ fst f = qs /\ snd f = d.
Proof.
  induction files as [|f files IH] using rev_ind; [discriminate|].
  rewrite last_payload_snoc. destruct (path_eqb (fst f) qs) eqn:E.
  - intros [= <-]. apply path_eqb_eq in E. exists f.
    split; [apply in_or_app; right; now left|auto].
  - intros H. destruct (IH H) as (g & Hg & Hq & Hd).
    exists g. split; [apply in_or_app; now left|auto].
Qed.

Lemma extract_files_from dbcs rest : forall t done,
  (forall qs, file_at t qs = last_payload done qs) ->
  (forall qs, dir_at t qs = true
              <-> qs <> [] /\ exists f, In f done
                                        /\ is_proper_prefix qs (fst f) = true) ->
  forallb (fun f => plain_path (fst f)) rest = true ->
  (forall f g, In f (done ++ rest) -> In g (done ++ rest) ->
               is_proper_prefix (fst f) (fst g) = false) ->
  exists t',
    _extract_with_encoding dbcs (entries_of rest) t = (t', None)
    /\ (forall qs, file_at t' qs = last_payload (done ++ rest) qs)
    /\ (forall qs, dir_at t' qs = true
                   <-> qs <> [] /\ exists f, In f (done ++ rest)
                                             /\ is_proper_prefix qs (fst f)
                                                = true).
Proof.
  induction rest as [|f rest IH]; intros t done Hf Hd Hplain Hfree.
  - exists t. rewrite app_nil_r. auto.
  - cbn [forallb] in Hplain. apply andb_prop in Hplain as [Hp Hrest].
    assert (Hin : In f (done ++ f :: rest))
      by (apply in_or_app; right; now left).
    destruct (extract_file_entry dbcs t (fst f) (snd f) Hp)
      as (t1 & He & Hf1 & Hd1).
    { intros q Hq Hpre. rewrite Hf.
      destruct (last_payload done q) as [d|] eqn:E; [|reflexivity].
      apply last_payload_some in E as (g & Hg & Hgq & _).
      rewrite <- Hgq, (Hfree g f) in Hpre.
      - discriminate.
      - apply in_or_app. now left.
      - exact Hin. }
    { destruct (dir_at t (fst f)) eqn:E; [|reflexivity].
      apply Hd in E as (_ & g & Hg & Hpre).
      rewrite (Hfree f g) in Hpre; [discriminate|exact Hin|].
      apply in_or_app. now left. }
    destruct (IH t1 (done ++ [f])) as (t2 & He2 & Hf2 & Hd2).
    + intros qs. rewrite Hf1, Hf, last_payload_snoc. reflexivity.
    + intros qs. rewrite Hd1, Hd. split.
      * intros [(Hq & g & Hg & Hpre)|(Hq & Hpre)]; (split; [exact Hq|]).
        -- exists g. split; [apply in_or_app; now left|exact Hpre].
        -- exists f. split; [apply in_or_app; right; now left|exact Hpre].
      * intros (Hq & g & Hg & Hpre). apply in_app_or in Hg as [Hg|[<-|[]]].
        -- left. eauto.
        -- right. auto.
    + exact Hrest.
    + rewrite <- app_assoc. exact Hfree.
    + rewrite <- app_assoc in Hf2, Hd2. cbn [app] in Hf2, Hd2.
      exists t2. split; [|split; assumption].
      unfold entries_of. cbn [map _extract_with_encoding].
      destruct f as [ps data]. cbn [fst snd] in *. rewrite He. exact He2.
Qed.

(** X17.  Extraction of file entries whose paths do not collide (no path lies
    above another one) always completes, and afterwards every path
    holds the payload of the last entry written to it, the directories
    are exactly the paths above some file, and nothing else exists. *)
Theorem extract_conflict_free_files dbcs files :
  forallb (fun f => plain_path (fst f)) files = true ->
  conflict_free files = true ->
  exists t,
    _extract_with_encoding dbcs (entries_of files) [] = (t, None)
    /\ (forall qs, file_at t qs = last_payload files qs)
    /\ (forall qs, dir_at t qs = true
                   <-> qs <> [] /\ exists f, In f files
                                             /\ is_proper_prefix qs (fst f)
                                                = true).
Proof.
  intros Hplain Hfree.
  apply (extract_files_from dbcs files [] []).
  - intros qs. unfold file_at. now rewrite find_node_nil_tree.
  - intros qs. unfold dir_at. rewrite find_node_nil_tree.
    split; [discriminate|]. now intros (_ & f & [] & _).
  - exact Hplain.
  - cbn [app]. intros f g Hf Hg. unfold conflict_free in Hfree.
    rewrite forallb_forall in Hfree. specialize (Hfree f Hf).
    rewrite forallb_forall in Hfree. specialize (Hfree g Hg).
    now apply negb_true_iff in Hfree.
Qed.

Lemma extract_conflict_free_files_witness :
  exists t,
    _extract_with_encoding dbcs_excerpt
      (entries_of [([name_B; name_C], [Byte.x01]); ([name_A], [Byte.x02]);
                   ([name_B; name_E; name_A], [Byte.x03]);
                   ([name_A], [Byte.x04])]) []
    = (t, None)
    /\ file_at t [name_A] = Some [Byte.x04]
    /\ dir_at t [name_B; name_E] = true.
Proof.
  destruct (extract_conflict_free_files dbcs_excerpt
              [([name_B; name_C], [Byte.x01]); ([name_A], [Byte.x02]);
               ([name_B; name_E; name_A], [Byte.x03]);
               ([name_A], [Byte.x04])] eq_refl eq_refl)
    as (t & He & Hf & Hd).
  exists t. split; [exact He|]. split; [apply Hf|].
  apply Hd. split; [discriminate|].
  exists ([name_B; name_E; name_A], [Byte.x03]).
  split; [right; right; now left|reflexivity].
Defined.

(** *** Saving and opening again *)

Lemma well_formed_dir es :
  well_formed (Dir es)
  = forallb plain (map fst es) && names_distinct (map fst es)
    && forallb (fun e => well_formed (snd e)) es.
Proof.
  cbn [well_formed]. f_equal.
  induction es as [|[k c] es IH]; [reflexivity|].
  cbn [forallb snd]. now rewrite IH.
Qed.

Lemma names_distinct_lookup t nm n :
  names_distinct (map fst t) = true ->
  In (nm, n) t -> lookup_name nm t = Some n.
Proof.
  induction t as [|[k m] t IH]; intros Hnd Hin; [destruct Hin|].
  cbn [map fst names_distinct] in Hnd. apply andb_prop in Hnd as [Hk Hnd].
  cbn [lookup_name]. destruct Hin as [[= -> ->]|Hin].
  - now rewrite pystr_eqb_refl.
  - destruct (pystr_eqb k nm) eqn:E; [|now apply IH].
    apply pystr_eqb_eq in E. subst k.
    apply negb_true_iff in Hk.
    assert (Hex : existsb (pystr_eqb nm) (map fst t) = true).
    { apply existsb_exists. exists nm. split; [|apply pystr_eqb_refl].
      apply in_map_iff. now exists (nm, n). }
    congruence.
Qed.

Lemma lookup_in t nm n : lookup_name nm t = Some n -> In (nm, n) t.
Proof.
  induction t as [|[k m] t IH]; [discriminate|].
  cbn [lookup_name]. destruct (pystr_eqb k nm) eqn:E.
  - apply pystr_eqb_eq in E. intros [= ->]. subst k. now left.
  - intros H. right. now apply IH.
Qed.

(** In a well-formed tree a path names at most one node, and it is the
    node the lookup finds. *)
Lemma node_at_find t ps n :
  node_at t ps n -> well_formed (Dir t) = true ->
  find_node t ps = Some n /\ forallb plain ps = true /\ ps <> []
  /\ well_formed n = true.
Proof.
  induction 1 as [t nm n Hin|t nm sub ps n Hin Hat IH]; intros Hwf;
    rewrite well_formed_dir in Hwf; apply andb_prop in Hwf as [Hwf Hall];
    apply andb_prop in Hwf as [Hpl Hnd]; apply list_elem_of_In in Hin;
    rewrite forallb_forall in Hpl, Hall;
    pose proof (Hall _ Hin) as Hsub; cbn [snd] in Hsub;
    assert (Hnm : plain nm = true)
      by (apply Hpl, in_map_iff; now exists (nm, n) + now exists (nm, Dir sub)).
  - cbn [find_node]. rewrite (names_distinct_lookup _ _ _ Hnd Hin).
    repeat split; [|discriminate|exact Hsub].
    cbn [forallb]. now rewrite Hnm.
  - destruct (IH Hsub) as (Hfind & Hps & Hne & Hn).
    cbn [find_node]. rewrite (names_distinct_lookup _ _ _ Hnd Hin).
    repeat split; [|cbn [forallb]; now rewrite Hnm|discriminate|exact Hn].
    destruct ps; [congruence|exact Hfind].
Qed.

Lemma find_node_at ps : forall t n, find_node t ps = Some n -> node_at t ps n.
Proof.
  induction ps as [|p ps IH]; intros t n; [discriminate|].
  cbn [find_node]. destruct (lookup_name p t) as [m|] eqn:El; [|discriminate].
  apply lookup_in, list_elem_of_In in El.
  destruct ps as [|q ps].
  - intros [= ->]. now apply at_here.
  - destruct m as [d|sub]; [discriminate|]. intros H.
    eapply at_below; [exact El|]. now apply IH.
Qed.

(** No path leads through a file. *)
Lemma file_not_above q : forall t p d,
  find_node t q = Some (File d) -> is_proper_prefix q p = true ->
  find_node t p = None.
Proof.
  induction q as [|x q IH]; intros t p d; [discriminate|].
  destruct p as [|y p]; [discriminate|].
  cbn [find_node is_proper_prefix]. intros Hq Hpre.
  apply andb_prop in Hpre as [Exy Hpre]. apply pystr_eqb_eq in Exy. subst y.
  destruct (lookup_name x t) as [m|]; [|reflexivity].
  destruct q as [|x' q].
  - injection Hq as ->. destruct p; [discriminate|reflexivity].
  - destruct m as [d'|sub]; [discriminate|].
    destruct p as [|y' p]; [discriminate|].
    now apply (IH sub (y' :: p) d).
Qed.

Lemma last_payload_none files qs :
  last_payload files qs = None -> forall f, In f files -> fst f <> qs.
Proof.
  induction files as [|g files IH] using rev_ind; [now intros _ f []|].
  rewrite last_payload_snoc. destruct (path_eqb (fst g) qs) eqn:E;
    [discriminate|].
  intros H f Hf. apply in_app_or in Hf as [Hf|[<-|[]]]; [now apply IH|].
  intros Heq. apply path_eqb_eq in Heq. congruence.
Qed.

Lemma archive_of_entries scandir wd :
  archive_of scandir wd = entries_of (written_files scandir wd).
Proof.
  unfold archive_of, entries_of. apply map_ext. now intros [ps data].
Qed.

Section SaveThenOpen.

Variable scandir : forall A : Type, list (pystr * A) -> list (pystr * A).
Hypothesis scandir_perm :
  forall (A : Type) (l : list (pystr * A)), Permutation (scandir A l) l.

(** [os.walk] misses no file. *)
Lemma walk_files_complete es qs n :
  node_at es qs n ->
  forall data rel, n = File data ->
    In (rel ++ qs, data) (walk_files scandir rel (Dir es)).
Proof.
  induction 1 as [t nm n Hin|t nm sub ps n Hin Hat IH]; intros data rel E;
    rewrite walk_files_dir; cbv zeta; apply in_or_app;
    apply list_elem_of_In in Hin.
  - subst n. left. apply list_elem_of_In, list_elem_of_omap.
    exists (nm, (File data, walk_files scandir (rel ++ [nm]) (File data))).
    split; [|reflexivity].
    apply list_elem_of_In, (in_scandir scandir scandir_perm), in_map_iff.
    now exists (nm, File data).
  - right. apply in_concat.
    exists (walk_files scandir (rel ++ [nm]) (Dir sub)). split.
    + apply in_map_iff.
      exists (nm, (Dir sub, walk_files scandir (rel ++ [nm]) (Dir sub))).
      split; [reflexivity|].
      apply (in_scandir scandir scandir_perm), in_map_iff.
      now exists (nm, Dir sub).
    + specialize (IH data (rel ++ [nm]) E).
      now rewrite <- app_assoc in IH.
Qed.

Lemma written_files_iff wd ps data :
  well_formed (Dir wd) = true ->
  In (ps, data) (written_files scandir wd)
  <-> file_at wd ps = Some data.
Proof.
  intros Hwf. unfold written_files, file_at. split.
  - intros Hin.
    apply (walk_files_are_files scandir scandir_perm) in Hin
      as (es & qs & [= <-] & -> & Hat).
    apply node_at_find in Hat as (Hfind & _); [|exact Hwf].
    cbn [app]. now rewrite Hfind.
  - destruct (find_node wd ps) as [[d|sub]|] eqn:E; try discriminate.
    intros [= ->]. apply find_node_at in E.
    apply (walk_files_complete wd ps (File data) E data [] eq_refl).
Qed.

Lemma written_files_plain wd ps data :
  well_formed (Dir wd) = true ->
  In (ps, data) (written_files scandir wd) -> plain_path ps = true.
Proof.
  intros Hwf Hin.
  apply (walk_files_are_files scandir scandir_perm) in Hin
    as (es & qs & [= <-] & -> & Hat).
  apply node_at_find in Hat as (_ & Hpl & Hne & _); [|exact Hwf].
  cbn [app]. unfold plain_path. destruct qs; [congruence|exact Hpl].
Qed.

(** The archive written for a well-formed working directory extracts
    without error into a tree with the same files; its directories are
    the ones with a file somewhere below. *)
Lemma extract_archive_of dbcs wd :
  well_formed (Dir wd) = true ->
  exists t,
    _extract_with_encoding dbcs (archive_of scandir wd) [] = (t, None)
    /\ (forall qs, file_at t qs = file_at wd qs)
    /\ (forall qs, dir_at t qs = true
                   <-> qs <> [] /\ exists ps data,
                         file_at wd ps = Some data
                         /\ is_proper_prefix qs ps = true).
Proof.
  intros Hwf. rewrite archive_of_entries.
  destruct (extract_files_from dbcs (written_files scandir wd) [] [])
    as (t & He & Hf & Hd).
  - intros qs. unfold file_at. now rewrite find_node_nil_tree.
  - intros qs. unfold dir_at. rewrite find_node_nil_tree.
    split; [discriminate|]. now intros (_ & f & [] & _).
  - apply forallb_forall. intros [ps data] Hin.
    now apply (written_files_plain wd ps data).
  - cbn [app]. intros [ps a] [qs b] Hp Hq. cbn [fst].
    apply written_files_iff in Hp, Hq; try exact Hwf.
    destruct (is_proper_prefix ps qs) eqn:E; [|reflexivity].
    unfold file_at in Hp, Hq.
    destruct (find_node wd ps) as [[d|sub]|] eqn:Ep; try discriminate.
    rewrite (file_not_above ps wd qs d Ep E) in Hq. discriminate.
  - cbn [app] in Hf, Hd. exists t. split; [exact He|]. split.
    + intros qs. rewrite Hf.
      destruct (last_payload (written_files scandir wd) qs) as [d|] eqn:E.
      * apply last_payload_some in E as ([ps data] & Hin & Hps & Hdata).
        cbn [fst snd] in Hps, Hdata. subst ps data.
        symmetry. now apply written_files_iff.
      * destruct (file_at wd qs) as [d|] eqn:Ef; [|reflexivity].
        apply written_files_iff in Ef; [|exact Hwf].
        now destruct (last_payload_none _ _ E _ Ef).
    + intros qs. rewrite Hd. split.
      * intros (Hq & [ps data] & Hin & Hpre). split; [exact Hq|].
        exists ps, data. split; [now apply written_files_iff|exact Hpre].
      * intros (Hq & ps & data & Hfile & Hpre). split; [exact Hq|].
        exists (ps, data). split; [now apply written_files_iff|exact Hpre].
Qed.

(** X18.  A saving [close] followed by [open] gives back the files of the
    working directory, each with its bytes and at its path, and no
    other file; a directory comes back exactly when some file lies
    below it, so empty directories are lost. *)
Theorem save_then_open_restores_files dbcs wd h d p temp create m :
  mode h = ModeRW ->
  workdir d = Some wd ->
  well_formed (Dir wd) = true ->
  exists d1 t,
    close scandir no_faults h true d = (d1, Ok tt)
    /\ open dbcs p temp create m d1
       = (set_workdir (Some t) d1, Opened (mkHandle p temp m))
    /\ (forall qs, file_at t qs = file_at wd qs)
    /\ (forall qs, dir_at t qs = true
                   <-> qs <> [] /\ exists ps data,
                         file_at wd ps = Some data
                         /\ is_proper_prefix qs ps = true).
Proof.
  intros Hm Hw Hwf.
  destruct (extract_archive_of dbcs wd Hwf) as (t & He & Hf & Hd).
  exists (mkDisk (Zip (archive_of scandir wd)) true None None), t.
  split; [now apply (close_saves scandir wd)|].
  split; [|split; assumption].
  unfold open. cbn [target]. now rewrite He.
Qed.

End SaveThenOpen.

Lemma save_then_open_restores_files_witness :
  exists d1 t,
    close reversed no_faults (mkHandle "x.zip" "/tmp/z_lib_1" ModeRW) true
      (mkDisk Absent true (Some (tree_with_empty_dir [Byte.x02])) None)
    = (d1, Ok tt)
    /\ open dbcs_excerpt "x.zip" "/tmp/z_lib_2" false ModeR d1
       = (set_workdir (Some t) d1,
          Opened (mkHandle "x.zip" "/tmp/z_lib_2" ModeR))
    /\ file_at t [name_A] = Some [Byte.x02]
    /\ dir_at t [name_E] = false.
Proof.
  destruct (save_then_open_restores_files reversed reversed_perm
              dbcs_excerpt (tree_with_empty_dir [Byte.x02])
              (mkHandle "x.zip" "/tmp/z_lib_1" ModeRW)
              (mkDisk Absent true (Some (tree_with_empty_dir [Byte.x02]))
                 None)
              "x.zip" "/tmp/z_lib_2" false ModeR eq_refl eq_refl eq_refl)
    as (d1 & t & Hc & Ho & Hf & Hd).
  exists d1, t. split; [exact Hc|]. split; [exact Ho|].
  split; [now rewrite Hf|].
  destruct (dir_at t [name_E]) eqn:E; [|reflexivity].
  apply Hd in E as (_ & ps & data & Hfile & Hpre).
  apply is_proper_prefix_spec in Hpre as ([|y r] & Hr & ->); [congruence|].
  discriminate Hfile.
Defined.

(** *** Where an extraction stops *)

Lemma extract_app dbcs l1 : forall l2 t,
  _extract_with_encoding dbcs (l1 ++ l2) t
  = match _extract_with_encoding dbcs l1 t with
    | (t1, None) => _extract_with_encoding dbcs l2 t1
    | (t1, Some s) => (t1, Some s)
    end.
Proof.
  induction l1 as [|e l1 IH]; intros l2 t; [reflexivity|].
  cbn [app _extract_with_encoding].
  destruct (extract_entry dbcs t e) as [t1 [s|]]; [reflexivity|apply IH].
Qed.

Lemma mkdirs_through_file q : forall t d r,
  find_node t q = Some (File d) ->
  exists msg, mkdirs (q ++ r) t = Raise (OSError msg).
Proof.
  induction q as [|x q IH]; intros t d r; [discriminate|].
  cbn [find_node app mkdirs].
  destruct (lookup_name x t) as [[d'|sub]|]; try discriminate.
  - intros _. eauto.
  - destruct q as [|y q]; [discriminate|]. intros H.
    destruct (IH sub d r H) as (msg & E). rewrite E. eauto.
Qed.

Lemma extract_entry_below_file dbcs t ps qs d data :
  plain_path qs = true ->
  file_at t ps = Some d ->
  is_proper_prefix ps qs = true ->
  exists msg,
    extract_entry dbcs t (zf_write (pjoin qs) data)
    = (t, Some (Failed (OSError msg))).
Proof.
  intros Hplain Hfile Hpre.
  unfold extract_entry.
  rewrite decode_written, leaves_dest_pjoin, ends_with_slash_pjoin,
    path_parts_pjoin by assumption.
  apply is_proper_prefix_spec in Hpre as (r & Hr & ->).
  rewrite removelast_app by exact Hr.
  unfold file_at in Hfile.
  destruct (find_node t ps) as [[d'|sub]|] eqn:E; try discriminate.
  destruct (mkdirs_through_file ps t d' (removelast r) E) as (msg & Hm).
  rewrite Hm. eauto.
Qed.

(** X19.  An entry whose path runs through an earlier file entry stops the
    extraction with an [OSError]: the entries before it are extracted,
    the entry itself and all later ones leave no trace. *)
Theorem extract_stops_below_a_file dbcs files qs data rest :
  forallb (fun f => plain_path (fst f)) files = true ->
  conflict_free files = true ->
  plain_path qs = true ->
  existsb (fun f => is_proper_prefix (fst f) qs) files = true ->
  exists t msg,
    _extract_with_encoding dbcs
      (entries_of files ++ zf_write (pjoin qs) data :: rest) []
    = (t, Some (Failed (OSError msg)))
    /\ (forall ps, file_at t ps = last_payload files ps).
Proof.
  intros Hplain Hfree Hqs Hex.
  destruct (extract_files_from dbcs files [] []) as (t & He & Hf & _).
  - intros ps. unfold file_at. now rewrite find_node_nil_tree.
  - intros ps. unfold dir_at. rewrite find_node_nil_tree.
    split; [discriminate|]. now intros (_ & f & [] & _).
  - exact Hplain.
  - cbn [app]. intros f g Hf Hg. unfold conflict_free in Hfree.
    rewrite forallb_forall in Hfree. specialize (Hfree f Hf).
    rewrite forallb_forall in Hfree. specialize (Hfree g Hg).
    now apply negb_true_iff in Hfree.
  - cbn [app] in Hf.
    apply existsb_exists in Hex as (f & Hin & Hpre).
    destruct (last_payload files (fst f)) as [d|] eqn:El.
    + destruct (extract_entry_below_file dbcs t (fst f) qs d data Hqs)
        as (msg & Hstop); [now rewrite Hf|exact Hpre|].
      exists t, msg. split; [|exact Hf].
      rewrite extract_app, He. cbn [_extract_with_encoding].
      now rewrite Hstop.
    + now destruct (last_payload_none _ _ El f Hin).
Qed.

Lemma extract_stops_below_a_file_witness :
  exists t msg,
    _extract_with_encoding dbcs_excerpt
      (entries_of [([name_A], [Byte.x01])]
       ++ zf_write (pjoin [name_A; name_C]) [Byte.x02]
          :: [zf_write name_E [Byte.x03]]) []
    = (t, Some (Failed (OSError msg)))
    /\ (forall ps, file_at t ps = last_payload [([name_A], [Byte.x01])] ps).
Proof.
  exact (extract_stops_below_a_file dbcs_excerpt [([name_A], [Byte.x01])]
           [name_A; name_C] [Byte.x02] [zf_write name_E [Byte.x03]]
           eq_refl eq_refl eq_refl eq_refl).
Defined.

(** *** A new archive *)

Section NewArchive.

Variable scandir : forall A : Type, list (pystr * A) -> list (pystr * A).
Hypothesis scandir_perm :
  forall (A : Type) (l : list (pystr * A)), Permutation (scandir A l) l.

Lemma archive_of_empty : archive_of scandir [] = [].
Proof.
  unfold archive_of, written_files. rewrite walk_files_dir. cbv zeta.
  cbn [map]. rewrite (Permutation_nil (Permutation_sym (scandir_perm _ []))).
  reflexivity.
Qed.

(** X20.  Opening a path where nothing exists with [create] and closing the
    handle with [save] writes an archive without entries there, makes
    the directory of the archive if it was missing, and removes the
    working directory. *)
Theorem create_then_save_writes_empty_archive dbcs p temp d :
  target d = Absent ->
  exists d1,
    open dbcs p temp true ModeRW d = (d1, Opened (mkHandle p temp ModeRW))
    /\ close scandir no_faults (mkHandle p temp ModeRW) true d1
       = (mkDisk (Zip []) true None None, Ok tt).
Proof.
  intros Ht. exists (set_workdir (Some []) d). split.
  - unfold open. now rewrite Ht.
  - rewrite (close_saves scandir []) by reflexivity.
    now rewrite archive_of_empty.
Qed.

End NewArchive.

Lemma create_then_save_writes_empty_archive_witness :
  exists d1,
    open dbcs_excerpt "new/x.zip" "/tmp/z_lib_1" true ModeRW
      (mkDisk Absent false None None)
    = (d1, Opened (mkHandle "new/x.zip" "/tmp/z_lib_1" ModeRW))
    /\ close reversed no_faults (mkHandle "new/x.zip" "/tmp/z_lib_1" ModeRW)
         true d1
       = (mkDisk (Zip []) true None None, Ok tt).
Proof.
  exact (create_then_save_writes_empty_archive reversed reversed_perm
           dbcs_excerpt "new/x.zip" "/tmp/z_lib_1"
           (mkDisk Absent false None None) eq_refl).
Defined.

End BackendMore.
